(** * GPU ray-casting volume renderer: the two fragment shaders

    A shallow embedding of the ray-casting kernels of the repository's two
    fragment shaders:

    - [volume_rendering_lighting.frag]: the procedural volume (two cubes
      and a sphere), module [Lighting];
    - the texture-backed overlay shader ([volume_rendering_overlay_rendering]),
      module [Overlay];

    and of the two divergence tables of [visualization.cpp], module
    [Visualization].

    GLSL [float] values are modelled by exact rationals ([Q]) that the
    arithmetic operations keep in lowest terms; a quotient by zero is [0]
    in [Q], so the embedding follows the shaders on rays whose direction
    has no zero component.  The camera set-up of
    [mainImage] (orbit position, field of view, [normalize]) uses
    trigonometric builtins that have no rational model: [mainImage] is
    embedded from the point where [camPos] and [rayDir] are known, and
    takes both as arguments.  The only builtin with a real-valued meaning
    that a statement needs, [pow], is modelled over [R] in module
    [OpacityReal]. *)

From Stdlib Require Import QArith Qround Qabs ZArith List Bool Psatz.
From Stdlib Require Import Reals.
Import ListNotations.

Local Open Scope Z_scope.
Local Open Scope Q_scope.

(* ================================================================== *)
(** ** GLSL vectors and builtins over [Q] *)
(* ================================================================== *)

Module Glsl.

Record vec3 : Set := mkvec3 { v3x : Q; v3y : Q; v3z : Q }.
Record vec4 : Set := mkvec4 { v4x : Q; v4y : Q; v4z : Q; v4w : Q }.

(** [vec3(s)] and [vec4(s)]: the same scalar in every component. *)
Definition vec3s (s : Q) : vec3 := mkvec3 s s s.
Definition vec4s (s : Q) : vec4 := mkvec4 s s s s.

(** Swizzles. *)
Definition xyz (v : vec4) : vec3 := mkvec3 (v4x v) (v4y v) (v4z v).
Definition alpha (v : vec4) : Q := v4w v.
Definition set_alpha (v : vec4) (a : Q) : vec4 := mkvec4 (v4x v) (v4y v) (v4z v) a.
Definition set_rgb (v : vec4) (c : vec3) : vec4 := mkvec4 (v3x c) (v3y c) (v3z c) (v4w v).

(** Float arithmetic: the exact result, in lowest terms. *)
Definition fadd (a b : Q) : Q := Qred (a + b).
Definition fsub (a b : Q) : Q := Qred (a - b).
Definition fmul (a b : Q) : Q := Qred (a * b).
Definition fdiv (a b : Q) : Q := Qred (a / b).

Infix ".+" := fadd (at level 50, left associativity).
Infix ".-" := fsub (at level 50, left associativity).
Infix ".*" := fmul (at level 40, left associativity).
Infix "./" := fdiv (at level 40, left associativity).

(** The comparison [a < b] of two floats, as a boolean. *)
Definition Qltb (a b : Q) : bool :=
  match a ?= b with Lt => true | _ => false end.
Definition Qleb (a b : Q) : bool := Qle_bool a b.

(** [min(x, y)] returns [y] if [y < x], otherwise [x];
    [max(x, y)] returns [y] if [x < y], otherwise [x]. *)
Definition fmin (x y : Q) : Q := if Qltb y x then y else x.
Definition fmax (x y : Q) : Q := if Qltb x y then y else x.

(** [mix(x, y, a) = x .* (1 .- a) .+ y .* a]. *)
Definition mix (x y a : Q) : Q := x .* (1 .- a) .+ y .* a.

(** Componentwise arithmetic on [vec3]. *)
Definition map3 (f : Q -> Q) (u : vec3) : vec3 :=
  mkvec3 (f (v3x u)) (f (v3y u)) (f (v3z u)).
Definition zip3 (f : Q -> Q -> Q) (u v : vec3) : vec3 :=
  mkvec3 (f (v3x u) (v3x v)) (f (v3y u) (v3y v)) (f (v3z u) (v3z v)).

Definition add3 : vec3 -> vec3 -> vec3 := zip3 fadd.
Definition sub3 : vec3 -> vec3 -> vec3 := zip3 fsub.
Definition mul3 : vec3 -> vec3 -> vec3 := zip3 fmul.
Definition div3 : vec3 -> vec3 -> vec3 := zip3 fdiv.
Definition min3 : vec3 -> vec3 -> vec3 := zip3 fmin.
Definition max3 : vec3 -> vec3 -> vec3 := zip3 fmax.
Definition mix3 (u v : vec3) (a : Q) : vec3 := zip3 (fun p q => mix p q a) u v.
Definition scale3 (s : Q) : vec3 -> vec3 := map3 (fmul s).
Definition adds3 (u : vec3) (s : Q) : vec3 := map3 (fun c => c .+ s) u.
Definition neg3 : vec3 -> vec3 := map3 Qopp.
Definition abs3 : vec3 -> vec3 := map3 Qabs.
Definition dot3 (u v : vec3) : Q :=
  v3x u .* v3x v .+ v3y u .* v3y v .+ v3z u .* v3z v.

(** [all(lessThan(u, v))]. *)
Definition allLessThan (u v : vec3) : bool :=
  Qltb (v3x u) (v3x v) && Qltb (v3y u) (v3y v) && Qltb (v3z u) (v3z v).

(** Componentwise arithmetic on [vec4]. *)
Definition map4 (f : Q -> Q) (u : vec4) : vec4 :=
  mkvec4 (f (v4x u)) (f (v4y u)) (f (v4z u)) (f (v4w u)).
Definition zip4 (f : Q -> Q -> Q) (u v : vec4) : vec4 :=
  mkvec4 (f (v4x u) (v4x v)) (f (v4y u) (v4y v))
         (f (v4z u) (v4z v)) (f (v4w u) (v4w v)).

Definition add4 : vec4 -> vec4 -> vec4 := zip4 fadd.
(** [v * s] for a vector [v] and a scalar [s]. *)
Definition scale4 (v : vec4) (s : Q) : vec4 := map4 (fun c => c .* s) v.
(** [s * v] for a scalar [s] and a vector [v]. *)
Definition scale4l (s : Q) (v : vec4) : vec4 := map4 (fun c => s .* c) v.

End Glsl.
Import Glsl.

(* ================================================================== *)
(** ** Ray / bounding-box intersection (the same text in both shaders) *)
(* ================================================================== *)

Section BoundingBox.

(** The shader's constants [bbMin] and [bbMax]. *)
Variables bbMin bbMax : vec3.

(** The per-axis slab distances [tmin = min(ttop, tbot)] and
    [tmax = max(ttop, tbot)] of [intersectBoundingBox]. *)
Definition slabMin (rayOrig rayDir : vec3) : vec3 :=
  let invR := div3 (vec3s 1) rayDir in
  let tbot := mul3 invR (sub3 bbMin rayOrig) in
  let ttop := mul3 invR (sub3 bbMax rayOrig) in
  min3 ttop tbot.

Definition slabMax (rayOrig rayDir : vec3) : vec3 :=
  let invR := div3 (vec3s 1) rayDir in
  let tbot := mul3 invR (sub3 bbMin rayOrig) in
  let ttop := mul3 invR (sub3 bbMax rayOrig) in
  max3 ttop tbot.

(** The result of [intersectBoundingBox]: the returned flag and the two
    [out] parameters. *)
Record Hit : Set := mkHit { hit : bool; tNear : Q; tFar : Q }.

Definition intersectBoundingBox (rayOrig rayDir : vec3) : Hit :=
  let tmin := slabMin rayOrig rayDir in
  let tmax := slabMax rayOrig rayDir in
  let largestTMin :=
    fmax (fmax (v3x tmin) (v3y tmin)) (fmax (v3x tmin) (v3z tmin)) in
  let smallestTMax :=
    fmin (fmin (v3x tmax) (v3y tmax)) (fmin (v3x tmax) (v3z tmax)) in
  mkHit (Qltb largestTMin smallestTMax) largestTMin smallestTMax.

End BoundingBox.

Arguments hit : clear implicits.
Arguments tNear : clear implicits.
Arguments tFar : clear implicits.

(* ================================================================== *)
(** ** The procedural shader, [volume_rendering_lighting.frag] *)
(* ================================================================== *)

Module Lighting.

(** first three coordinates: center position;
    w-component: radius for spheres, half-width for cubes *)
Definition cube1 : vec4 := mkvec4 0 0 0 1.
Definition cube2 : vec4 := mkvec4 1 1 1 (3 # 2).      (* 1.5F *)
Definition sphere1 : vec4 := mkvec4 1 0 3 (1 # 2).    (* 0.5F *)

(** density of objects *)
Definition cube1Density : Q := 3 # 200.     (* 0.015F *)
Definition cube2Density : Q := 1 # 50.      (* 0.02F *)
Definition sphere1Density : Q := 3 # 100.   (* 0.03F *)

(** bounding box *)
Definition bbMin : vec3 := vec3s (- (7 # 2)).   (* vec3(-3.5F) *)
Definition bbMax : vec3 := vec3s (7 # 2).       (* vec3(3.5F) *)

(** number of maximum raycasting samples per ray *)
Definition sampleNum : Z := 256.

(** width of one voxel *)
Definition voxelWidth : Q := 1 ./ 64.

(** epsilon for comparisons *)
Definition EPS : Q := 1 # 10000000.   (* 1.0E-7F *)

(** The light direction, the light colours and the Phong coefficients are
    global constants of the shader.  They are gathered in a record that
    [lighting] receives explicitly, so that what [lighting] does with
    them can be stated. *)
Record LightEnv : Set := mkLightEnv {
  lightDir : vec3;
  lightColor : vec4;
  specularColor : vec4;
  ka : Q;
  kd : Q;
  ks : Q;
  exponent : Q
}.

(** The values the shader gives them: [lightDir = vec3(1, 1, 1)],
    [lightColor = specularColor = vec4(1)], [ka = kd = 0.5], [ks = 0.7],
    [exponent = 50]. *)
Definition shaderLight : LightEnv :=
  mkLightEnv (mkvec3 1 1 1) (vec4s 1) (vec4s 1) (1 # 2) (1 # 2) (7 # 10) 50.

(** [length(point - spherePos) <= sphere.w], without the square root:
    the radius is not negative and the squared distance is at most the
    squared radius. *)
Definition isInSphere (point : vec3) (sphere : vec4) : bool :=
  let spherePos := xyz sphere in
  let d := sub3 point spherePos in
  Qleb 0 (v4w sphere) && Qleb (dot3 d d) (v4w sphere .* v4w sphere).

Definition isInCube (point : vec3) (cube : vec4) : bool :=
  let dist := abs3 (sub3 point (xyz cube)) in
  allLessThan dist (vec3s (v4w cube)).

Definition sampleVolume (volumeCoord : vec3) : Q :=
  let in1 := isInCube volumeCoord cube1 in
  let in2 := isInCube volumeCoord cube2 in
  let in3 := isInSphere volumeCoord sphere1 in
  let result := 0 in
  let result := if in1 then result .+ cube1Density else result in
  let result := if in2 then result .+ cube2Density else result in
  let result := if in3 then result .+ sphere1Density else result in
  result.

Definition transferFunction (value : Q) : vec4 :=
  if Qltb EPS value then
    if Qltb (cube1Density .+ EPS) value then
      if Qltb (cube2Density .+ EPS) value then
        if Qltb (cube1Density .+ cube2Density .+ EPS) value then
          mkvec4 0 0 0 1
        else mkvec4 1 0 0 1
      else mkvec4 0 1 0 1
    else mkvec4 0 0 1 1
  else vec4s 0.

Definition intersectBoundingBox : vec3 -> vec3 -> Hit :=
  intersectBoundingBox bbMin bbMax.

Definition background : vec4 := mkvec4 0 0 0 1.

Definition rayStepSize : Q := (v3x bbMax .- v3x bbMin) ./ inject_Z sampleNum.

(** The state of the ray-casting loop.  [sampled] is a ghost field: the
    positions handed to [sampleVolume] so far, the latest first. *)
Record March : Set := mkMarch {
  pos : vec3;
  finalColor : vec4;
  finalGradient : vec3;
  sampled : list vec3
}.

Section Shader.

(** The two gradient functions return a local [vec3 result] that is
    never assigned: whatever they return is left open. *)
Variable unassignedCentral : vec3 -> vec3.
Variable unassignedIntermediate : vec3 -> vec3.
(** The builtin [normalize], which has no rational model. *)
Variable normalize : vec3 -> vec3.
Variable env : LightEnv.

Definition gradientCentral (pos : vec3) : vec3 :=
  let result := unassignedCentral pos in
  result.

Definition gradientIntermediate (pos : vec3) : vec3 :=
  let result := unassignedIntermediate pos in
  result.

Definition lighting (L : LightEnv) (diffuseColor : vec4)
    (normal eyeDir : vec3) : vec4 :=
  let color := diffuseColor in
  color.

(** One turn of the [for] loop after the early-termination test
    ([USE_INTERMEDIATE] is defined). *)
Definition marchStep (rayDir : vec3) (s : March) : March :=
  let pos := add3 (pos s) (scale3 rayStepSize rayDir) in
  let sampleValue := sampleVolume pos in
  let color := transferFunction sampleValue in
  let grad := gradientIntermediate pos in
  let finalGradient := grad in
  let color :=
    lighting env color (neg3 (normalize finalGradient)) (neg3 rayDir) in
  let color := set_rgb color (map3 (fun c => c .* alpha color) (xyz color)) in
  let finalColor :=
    add4 (finalColor s) (scale4 color (1 .- v4w (finalColor s))) in
  mkMarch pos finalColor finalGradient (pos :: sampled s).

(** [for (int i = 0; i < sampleNum; ++i)], with [n = sampleNum - i]
    turns left, and the [break] on a saturated alpha. *)
Fixpoint raycastLoop (rayDir : vec3) (n : nat) (s : March) : March :=
  match n with
  | O => s
  | S n' =>
      if Qltb (99 # 100) (alpha (finalColor s)) then s
      else raycastLoop rayDir n' (marchStep rayDir s)
  end.

(** [tNear] after [if (tNear < 0.0F) tNear = 0.0F;]. *)
Definition entry (camPos rayDir : vec3) : Q :=
  let tNear := tNear (intersectBoundingBox camPos rayDir) in
  if Qltb tNear 0 then 0 else tNear.

(** The loop of [mainImage], run from its initial state. *)
Definition rayMarch (camPos rayDir : vec3) : March :=
  let tNear := entry camPos rayDir in
  let pos := add3 camPos (map3 (fun c => c .* tNear) rayDir) in
  let finalColor := vec4s 0 in
  let finalGradient := vec3s 0 in
  raycastLoop rayDir (Z.to_nat sampleNum)
    (mkMarch pos finalColor finalGradient []).

(** [mainImage], from the bounding-box test on; the clamp of [tNear],
    which the shader does before it tests [hit], is in [entry]. *)
Definition mainImage (camPos rayDir : vec3) : vec4 :=
  let hit := hit (intersectBoundingBox camPos rayDir) in
  if negb hit then background
  else
    let finalColor := finalColor (rayMarch camPos rayDir) in
    add4 (scale4 finalColor (alpha finalColor))
         (scale4l (1 .- alpha finalColor) background).

End Shader.

End Lighting.


(* ================================================================== *)
(** ** The texture-backed shader, [volume_rendering_overlay_rendering] *)
(* ================================================================== *)

Module Overlay.

(** bounding box *)
Definition bbMin : vec3 := vec3s (- (1 # 2)).   (* vec3(-0.5F) *)
Definition bbMax : vec3 := vec3s (1 # 2).       (* vec3(0.5F) *)

(** number of maximum raycasting samples per ray *)
Definition sampleNum : Z := 150.

(** width of one voxel *)
Definition voxelWidth : Q := 1 ./ 64.

(** Colors for the colormap (no function of the shader reads them). *)
Definition colorNode0 : vec3 := mkvec3 0 0 1.
Definition colorNode1 : vec3 := mkvec3 0 1 0.
Definition colorNode2 : vec3 := mkvec3 1 0 0.

Definition transferFunction (value : Q) : vec4 :=
  if Qltb value (1 # 2) then vec4s 0
  else vec4s value.

Definition intersectBoundingBox : vec3 -> vec3 -> Hit :=
  intersectBoundingBox bbMin bbMax.

Definition background : vec4 := mkvec4 0 0 0 1.

Definition rayStepSize : Q := (v3x bbMax .- v3x bbMin) ./ inject_Z sampleNum.

(** ratio between current sampling rate vs. the original sampling rate *)
Definition opacityCorrectionFactor : Q := 1 ./ (inject_Z sampleNum .* voxelWidth).

(** The state of the ray-casting loop: the locals [t], [i] and
    [finalColor] of [mainImage] (the local [finalGradient] is never read).
    [sampled] is a ghost field: the values of [t] at which the volume was
    sampled so far, the latest first. *)
Record March : Set := mkMarch {
  t : Q;
  i : Z;
  finalColor : vec4;
  sampled : list Q
}.

Section Shader.

(** The uniform [textureSampler], as the lookup [texture(textureSampler, .)]. *)
Variable textureSampler : vec3 -> vec4.
(** The builtin [pow], which has no rational model. *)
Variable pow : Q -> Q -> Q.

Definition sampleVolume (texCoord : vec3) : Q :=
  v4x (textureSampler texCoord).

Definition opacityCorrection (alpha samplingRatio : Q) : Q :=
  let a_corrected := 1 .- pow (1 .- alpha) samplingRatio in
  a_corrected.

(** [composedColor] is [inout]: the function returns its new value. *)
Definition accumulation (value opacityCorrectionFactor : Q)
    (composedColor : vec4) : vec4 :=
  let color := transferFunction value in
  let color :=
    set_alpha color (opacityCorrection (alpha color) opacityCorrectionFactor) in
  let composedColor := scale4 (vec4s (1 # 2)) value in
  composedColor.

(** [t < tFar && i < sampleNum]. *)
Definition loopCond (tFar : Q) (s : March) : bool :=
  Qltb (t s) tFar && (i s <? sampleNum)%Z.

(** The body of the [while] loop. *)
Definition loopBody (camPos rayDir : vec3) (s : March) : March :=
  let pos := add3 camPos (scale3 (t s) rayDir) in
  let texCoord := adds3 pos (1 # 2) in
  let value := sampleVolume texCoord in
  let finalColor :=
    accumulation value opacityCorrectionFactor (finalColor s) in
  mkMarch (t s .+ rayStepSize) (i s) finalColor (t s :: sampled s).

(** The [while] loop, run for at most [fuel] tests of its condition:
    [None] when the fuel runs out before the condition fails. *)
Fixpoint whileLoop (fuel : nat) (camPos rayDir : vec3) (tFar : Q)
    (s : March) : option March :=
  match fuel with
  | O => None
  | S fuel' =>
      if loopCond tFar s
      then whileLoop fuel' camPos rayDir tFar (loopBody camPos rayDir s)
      else Some s
  end.

(** The loop of [mainImage], run from its initial state. *)
Definition rayMarch (fuel : nat) (camPos rayDir : vec3) : option March :=
  let h := intersectBoundingBox camPos rayDir in
  let finalColor := vec4s 0 in
  let t := tNear h in
  let i := 0%Z in
  whileLoop fuel camPos rayDir (tFar h) (mkMarch t i finalColor []).

(** [mainImage], from the bounding-box test on. *)
Definition mainImage (fuel : nat) (camPos rayDir : vec3) : option vec4 :=
  let hit := hit (intersectBoundingBox camPos rayDir) in
  if negb hit then Some background
  else
    match rayMarch fuel camPos rayDir with
    | None => None
    | Some s =>
        let finalColor := finalColor s in
        let rgb := mix3 (xyz background) (xyz finalColor) (alpha finalColor) in
        Some (mkvec4 (v3x rgb) (v3y rgb) (v3z rgb) 1)
    end.

End Shader.

End Overlay.

(* ================================================================== *)
(** ** Opacity correction over the reals *)
(* ================================================================== *)

Module OpacityReal.

Local Open Scope R_scope.

(** The builtin [pow(x, y)]: [x] to the power [y]; the result is undefined
    if [x < 0], and if [x = 0] and [y <= 0]. *)
Definition pow (x y : R) : option R :=
  if Rlt_dec 0 x then Some (Rpower x y)
  else if Req_dec_T x 0 then
    if Rlt_dec 0 y then Some 0 else None
  else None.

(** [opacityCorrection] of the overlay shader, with the meaning of [pow]. *)
Definition opacityCorrection (alpha samplingRatio : R) : option R :=
  match pow (1 - alpha) samplingRatio with
  | Some p => let a_corrected := 1 - p in Some a_corrected
  | None => None
  end.

End OpacityReal.

(* ================================================================== *)
(** ** The divergence tables, [visualization.cpp] *)
(* ================================================================== *)

(** [velocityDivergence] and [forceFieldDivergence] of [visualization.cpp].
    [float] values are the same exact rationals as in the shaders, a
    [std::vector<float>] is a list, and a [size_t] index is a natural
    number: the subtractions of the source do not go below zero when
    [1 <= m_DIM]. *)
Module Visualization.

(** [v.at(idx) = x]: [None] when [idx] is out of range, where [at] throws
    [std::out_of_range]. *)
Fixpoint assignAt (v : list Q) (idx : nat) (x : Q) : option (list Q) :=
  match v, idx with
  | [], _ => None
  | _ :: v', O => Some (x :: v')
  | y :: v', S idx' =>
      match assignAt v' idx' x with
      | Some w => Some (y :: w)
      | None => None
      end
  end.

(** [for (size_t idx = first; idx < first + count; ++idx) v.at(idx) = g(idx);]
    ([count] is the number of turns, zero when the bound is not above
    [first]). *)
Fixpoint assignRange (g : nat -> Q) (first count : nat) (v : list Q)
    : option (list Q) :=
  match count with
  | O => Some v
  | S count' =>
      match assignAt v first (g first) with
      | Some v' => assignRange g (S first) count' v'
      | None => None
      end
  end.

Section Divergence.

(** The two components of the vector field of the simulation, read by
    index: [m_simulation.vx(idx)] and [m_simulation.vy(idx)] in
    [velocityDivergence], [fx] and [fy] in [forceFieldDivergence]. *)
Variables fieldX fieldY : nat -> Q.
Variable m_DIM : nat.
Variables m_cellWidth m_cellHeight : Q.

Definition backwardFiniteDifference
    (idx previousX_idx previousY_idx : nat) : Q :=
  (fieldX idx .- fieldX previousX_idx) ./ m_cellWidth
  .+ (fieldY idx .- fieldY previousY_idx) ./ m_cellHeight.

(** The body the two divergence functions share: the vector is resized to
    [m_DIM * m_DIM] zeros and filled by five runs of [at] assignments. *)
Definition divergence : option (list Q) :=
  let v := repeat 0 (m_DIM * m_DIM) in
  match assignAt v 0
          (backwardFiniteDifference 0 (m_DIM - 1) ((m_DIM - 1) * m_DIM)) with
  | None => None
  | Some v =>
  match assignRange
          (fun idx => backwardFiniteDifference idx (idx - 1)
                        (idx + (m_DIM - 1) * m_DIM))
          1 (m_DIM - 1) v with
  | None => None
  | Some v =>
  match assignRange
          (fun idx =>
             if (idx mod m_DIM =? 0)%nat
             then backwardFiniteDifference idx (idx + m_DIM - 1) (idx - m_DIM)
             else backwardFiniteDifference idx (idx - 1) (idx - m_DIM))
          m_DIM ((m_DIM - 1) * m_DIM - m_DIM) v with
  | None => None
  | Some v =>
  match assignAt v ((m_DIM - 1) * m_DIM)
          (backwardFiniteDifference ((m_DIM - 1) * m_DIM)
             (m_DIM * m_DIM - 1) 0) with
  | None => None
  | Some v =>
      assignRange
        (fun idx => backwardFiniteDifference idx (idx - 1)
                      (idx - (m_DIM - 1) * m_DIM))
        ((m_DIM - 1) * m_DIM + 1)
        (m_DIM * m_DIM - ((m_DIM - 1) * m_DIM + 1)) v
  end end end end.

End Divergence.

Definition velocityDivergence (vx vy : nat -> Q) (m_DIM : nat)
    (m_cellWidth m_cellHeight : Q) : option (list Q) :=
  divergence vx vy m_DIM m_cellWidth m_cellHeight.

Definition forceFieldDivergence (fx fy : nat -> Q) (m_DIM : nat)
    (m_cellWidth m_cellHeight : Q) : option (list Q) :=
  divergence fx fy m_DIM m_cellWidth m_cellHeight.

End Visualization.

(* ================================================================== *)
(** ** Vocabulary of the statements *)
(* ================================================================== *)

(** [m] is the largest (smallest) of [a], [b] and [c]. *)
Definition isMax3 (m a b c : Q) : Prop :=
  (a <= m /\ b <= m /\ c <= m) /\ (m = a \/ m = b \/ m = c).
Definition isMin3 (m a b c : Q) : Prop :=
  (m <= a /\ m <= b /\ m <= c) /\ (m = a \/ m = b \/ m = c).

(** Two loop states that agree on everything but the stored gradient. *)
Definition sameButGradient (s s' : Lighting.March) : Prop :=
  Lighting.pos s = Lighting.pos s' /\
  Lighting.finalColor s = Lighting.finalColor s' /\
  Lighting.sampled s = Lighting.sampled s'.

(** A count of loop turns, as a float. *)
Definition ofNat (k : nat) : Q := inject_Z (Z.of_nat k).

(** The number of turns the overlay loop makes from [tNear] to [tFar]. *)
Definition turnsBetween (tNear tFar : Q) : nat :=
  Z.to_nat (Qceiling ((tFar - tNear) / Overlay.rayStepSize)).

(** The number of turns of the overlay loop on a ray. *)
Definition overlayTurns (camPos rayDir : vec3) : nat :=
  let h := Overlay.intersectBoundingBox camPos rayDir in
  turnsBetween (tNear h) (tFar h).

(** A ray of the overlay shader's camera at time 0 (the camera sits at
    (1.5, 0.75, 0)) that crosses the box over a length of 9/8. *)
Definition overlayCam : vec3 := mkvec3 (3 # 2) (3 # 4) 0.
Definition overlayRay : vec3 := mkvec3 (- 8 # 9) (- 4 # 9) (- 1 # 9).

(** A ray of the lighting shader's camera at time 0 (the camera sits at
    (7, 3.5, 0)) that crosses a corner of the box, beside the three
    primitives. *)
Definition lightingCam : vec3 := mkvec3 7 (7 # 2) 0.
Definition lightingRay : vec3 := mkvec3 (- 6 # 7) (- 2 # 7) (- 3 # 7).

(** A volume that holds 1 where the first texture coordinate exceeds
    0.999 and 0.5 elsewhere. *)
Definition stepTexture (texCoord : vec3) : vec4 :=
  if Qltb (999 # 1000) (v3x texCoord) then vec4s 1 else vec4s (1 # 2).

(** [g] is continuous at [b]. *)
Definition continuousAt (g : Q -> Q) (b : Q) : Prop :=
  forall eps, 0 < eps ->
  exists delta, 0 < delta /\
    forall v, Qabs (v - b) < delta -> Qabs (g v - g b) < eps.

(** The palette of the lighting shader's transfer function. *)
Definition blue : vec4 := mkvec4 0 0 1 1.
Definition green : vec4 := mkvec4 0 1 0 1.
Definition red : vec4 := mkvec4 1 0 0 1.
Definition black : vec4 := mkvec4 0 0 0 1.



(** The point [p] lies in the closed box. *)
Definition pointInBox (bbMin bbMax p : vec3) : Prop :=
  (v3x bbMin <= v3x p /\ v3x p <= v3x bbMax) /\
  (v3y bbMin <= v3y p /\ v3y p <= v3y bbMax) /\
  (v3z bbMin <= v3z p /\ v3z p <= v3z bbMax).


(** The density of the procedural volume at [p] is classified transparent. *)
Definition transparentAt (p : vec3) : Prop :=
  Lighting.sampleVolume p <= Lighting.EPS.



(** Neighbours on the row-major [dim] x [dim] grid of the divergence: the
    index one column to the left in the same row, wrapping around; and the
    row whose entry is subtracted in y, which is the last row for row 0,
    the row before for the rows between, and row 0 for the last row. *)
Definition leftOf (dim idx : nat) : nat :=
  (idx / dim) * dim + (idx mod dim + dim - 1) mod dim.
Definition yNeighbourRow (dim r : nat) : nat :=
  if (r =? 0)%nat then dim - 1 else if (r =? dim - 1)%nat then 0 else r - 1.
Definition aboveOf (dim idx : nat) : nat :=
  yNeighbourRow dim (idx / dim) * dim + idx mod dim.

(** The entry of a divergence table at [idx]. *)
Definition divergenceAt (fieldX fieldY : nat -> Q) (w h : Q) (dim idx : nat)
    : Q :=
  Visualization.backwardFiniteDifference fieldX fieldY w h
    idx (leftOf dim idx) (aboveOf dim idx).

(** A vector of [n] entries whose first [k] are those of [f], the others 0. *)
Definition filled (f : nat -> Q) (n k : nat) : list Q :=
  map f (seq 0 k) ++ repeat 0 (n - k).

(** [result] is a table of [dim * dim] entries whose entry in row [r] and
    column [c] is the backward difference against column [c - 1] (modulo
    [dim]) of row [r] and against column [c] of row [yNeighbourRow dim r]. *)
Definition divergenceTable (fieldX fieldY : nat -> Q) (w h : Q) (dim : nat)
    (result : option (list Q)) : Prop :=
  exists v,
    result = Some v /\
    length v = (dim * dim)%nat /\
    forall r c, (r < dim)%nat -> (c < dim)%nat ->
      nth_error v (r * dim + c)
      = Some (Visualization.backwardFiniteDifference fieldX fieldY w h
                (r * dim + c)
                (r * dim + (c + dim - 1) mod dim)
                (yNeighbourRow dim r * dim + c)).

(* ================================================================== *)
(** ** Basic facts about the float model *)
(* ================================================================== *)

Lemma fadd_eq (a b : Q) : a .+ b == a + b.
Proof. apply Qred_correct. Qed.

Lemma fsub_eq (a b : Q) : a .- b == a - b.
Proof. apply Qred_correct. Qed.

Lemma fmul_eq (a b : Q) : a .* b == a * b.
Proof. apply Qred_correct. Qed.

Lemma fdiv_eq (a b : Q) : a ./ b == a / b.
Proof. apply Qred_correct. Qed.

#[global] Instance fadd_proper : Proper (Qeq ==> Qeq ==> Qeq) fadd.
Proof. intros a a' Ha b b' Hb. now rewrite !fadd_eq, Ha, Hb. Qed.

#[global] Instance fsub_proper : Proper (Qeq ==> Qeq ==> Qeq) fsub.
Proof. intros a a' Ha b b' Hb. now rewrite !fsub_eq, Ha, Hb. Qed.

#[global] Instance fmul_proper : Proper (Qeq ==> Qeq ==> Qeq) fmul.
Proof. intros a a' Ha b b' Hb. now rewrite !fmul_eq, Ha, Hb. Qed.

Lemma Qltb_true (a b : Q) : Qltb a b = true <-> a < b.
Proof.
  unfold Qltb. rewrite Qlt_alt.
  destruct (a ?= b); split; congruence.
Qed.

Lemma Qltb_false (a b : Q) : Qltb a b = false <-> b <= a.
Proof.
  rewrite <- not_true_iff_false, Qltb_true. split.
  - apply Qnot_lt_le.
  - intros H1 H2. exact (Qlt_not_le _ _ H2 H1).
Qed.

Lemma Qltb_reflect (a b : Q) : reflect (a < b) (Qltb a b).
Proof.
  destruct (Qltb a b) eqn:E; constructor.
  - now apply Qltb_true.
  - apply Qltb_false in E. now apply Qle_not_lt.
Qed.

(** [fmax] and [fmin] return one of their arguments and bound both. *)
Lemma fmax_cases (a b : Q) :
  (fmax a b = a /\ b <= a) \/ (fmax a b = b /\ a < b).
Proof.
  unfold fmax. destruct (Qltb_reflect a b) as [H | H].
  - right. now split.
  - left. split; [reflexivity | now apply Qnot_lt_le].
Qed.

Lemma fmin_cases (a b : Q) :
  (fmin a b = a /\ a <= b) \/ (fmin a b = b /\ b < a).
Proof.
  unfold fmin. destruct (Qltb_reflect b a) as [H | H].
  - right. now split.
  - left. split; [reflexivity | now apply Qnot_lt_le].
Qed.

(* ================================================================== *)
(** ** The bounding-box intersector *)
(* ================================================================== *)

(** C2.  For every bounding box (so for the box of either shader) and every
    ray origin and direction, [intersectBoundingBox] sets [tNear] to the
    largest of the three per-axis slab minima and [tFar] to the smallest of
    the three per-axis slab maxima, and returns true exactly when [tFar]
    strictly exceeds [tNear]: it reports no hit exactly when
    [tFar <= tNear]. *)
Theorem C2_intersectBoundingBox_slabs :
  forall bbMin bbMax rayOrig rayDir : vec3,
    let h := intersectBoundingBox bbMin bbMax rayOrig rayDir in
    let tmin := slabMin bbMin bbMax rayOrig rayDir in
    let tmax := slabMax bbMin bbMax rayOrig rayDir in
    isMax3 (tNear h) (v3x tmin) (v3y tmin) (v3z tmin) /\
    isMin3 (tFar h) (v3x tmax) (v3y tmax) (v3z tmax) /\
    (hit h = true <-> tNear h < tFar h) /\
    (hit h = false <-> tFar h <= tNear h).
Proof.
  intros bbMin bbMax rayOrig rayDir h tmin tmax.
  subst h. unfold intersectBoundingBox. fold tmin. fold tmax. cbn [hit tNear tFar].
  set (a := v3x tmin). set (b := v3y tmin). set (c := v3z tmin).
  set (a' := v3x tmax). set (b' := v3y tmax). set (c' := v3z tmax).
  split; [| split; [| split]].
  - unfold isMax3.
    destruct (fmax_cases a b) as [[-> Hab] | [-> Hab]];
    destruct (fmax_cases a c) as [[-> Hac] | [-> Hac]];
    match goal with |- context [fmax ?u ?v] =>
      destruct (fmax_cases u v) as [[-> H] | [-> H]] end;
    (split; [ repeat split; lra | tauto ]).
  - unfold isMin3.
    destruct (fmin_cases a' b') as [[-> Hab] | [-> Hab]];
    destruct (fmin_cases a' c') as [[-> Hac] | [-> Hac]];
    match goal with |- context [fmin ?u ?v] =>
      destruct (fmin_cases u v) as [[-> H] | [-> H]] end;
    (split; [ repeat split; lra | tauto ]).
  - apply Qltb_true.
  - apply Qltb_false.
Qed.

(* ================================================================== *)
(** ** Rays that miss the box *)
(* ================================================================== *)

(** C6.  In either shader, when the intersector returns false for the ray
    of a pixel, the fragment colour is the background colour itself (the
    overlay shader needs no turn of its loop for that: any fuel will do). *)
Theorem C6_miss_gives_background :
  forall unassigned normalize env textureSampler pow fuel camPos rayDir,
    (hit (Lighting.intersectBoundingBox camPos rayDir) = false ->
     Lighting.mainImage unassigned normalize env camPos rayDir
       = Lighting.background) /\
    (hit (Overlay.intersectBoundingBox camPos rayDir) = false ->
     Overlay.mainImage textureSampler pow fuel camPos rayDir
       = Some Overlay.background).
Proof.
  intros ui nrm env tex pw fuel camPos rayDir. split; intros Hmiss.
  - unfold Lighting.mainImage. now rewrite Hmiss.
  - unfold Overlay.mainImage. now rewrite Hmiss.
Qed.

(** A ray from the lighting shader's camera at time 0 whose line passes
    beside both boxes. *)
Lemma C6_miss_gives_background_witness :
  let camPos := mkvec3 7 (7 # 2) 0 in
  let rayDir := mkvec3 (2 # 3) (- 2 # 3) (1 # 3) in
  Lighting.mainImage (fun _ => vec3s 0) (fun v => v) Lighting.shaderLight
    camPos rayDir = Lighting.background /\
  Overlay.mainImage (fun _ => vec4s 1) (fun x _ => x) 0 camPos rayDir
    = Some Overlay.background.
Proof.
  intros camPos rayDir.
  pose proof (C6_miss_gives_background (fun _ => vec3s 0) (fun v => v)
                Lighting.shaderLight (fun _ => vec4s 1) (fun x _ => x) 0%nat
                camPos rayDir) as [HL HO].
  split; [apply HL | apply HO]; vm_compute; reflexivity.
Defined.

(* ================================================================== *)
(** ** The lighting stub *)
(* ================================================================== *)

Section LightingIndependence.

Variables (ui ui' nrm nrm' : vec3 -> vec3) (L L' : Lighting.LightEnv).

Lemma marchStep_sameButGradient rayDir s s' :
  sameButGradient s s' ->
  sameButGradient (Lighting.marchStep ui nrm L rayDir s)
                  (Lighting.marchStep ui' nrm' L' rayDir s').
Proof.
  intros (Hp & Hc & Ht). unfold sameButGradient, Lighting.marchStep.
  cbn [Lighting.pos Lighting.finalColor Lighting.sampled].
  unfold Lighting.lighting. now rewrite Hp, Hc, Ht.
Qed.

Lemma raycastLoop_sameButGradient rayDir n : forall s s',
  sameButGradient s s' ->
  sameButGradient (Lighting.raycastLoop ui nrm L rayDir n s)
                  (Lighting.raycastLoop ui' nrm' L' rayDir n s').
Proof.
  induction n as [| n IH]; intros s s' Hs; cbn [Lighting.raycastLoop].
  - exact Hs.
  - destruct Hs as (Hp & Hc & Ht). rewrite <- Hc.
    destruct (Qltb _ _).
    + now repeat split.
    + apply IH, marchStep_sameButGradient. now repeat split.
Qed.

Lemma rayMarch_sameButGradient camPos rayDir :
  sameButGradient (Lighting.rayMarch ui nrm L camPos rayDir)
                  (Lighting.rayMarch ui' nrm' L' camPos rayDir).
Proof.
  unfold Lighting.rayMarch. apply raycastLoop_sameButGradient.
  now repeat split.
Qed.

Lemma mainImage_independent camPos rayDir :
  Lighting.mainImage ui nrm L camPos rayDir
  = Lighting.mainImage ui' nrm' L' camPos rayDir.
Proof.
  unfold Lighting.mainImage.
  destruct (rayMarch_sameButGradient camPos rayDir) as (_ & Hc & _).
  now rewrite Hc.
Qed.

End LightingIndependence.

(** C9.  [lighting] returns its [diffuseColor] argument for every normal,
    eye direction and setting of the light parameters; hence the pixel
    colour of the lighting shader is the same whatever the gradient
    functions return, whatever [normalize] makes of it, and whatever the
    light direction, the light colours and the ambient, diffuse and
    specular parameters are. *)
Theorem C9_lighting_returns_diffuseColor :
  (forall (L : Lighting.LightEnv) (diffuseColor : vec4) (normal eyeDir : vec3),
     Lighting.lighting L diffuseColor normal eyeDir = diffuseColor) /\
  (forall (gradient gradient' normalize normalize' : vec3 -> vec3)
          (L L' : Lighting.LightEnv) (camPos rayDir : vec3),
     Lighting.mainImage gradient normalize L camPos rayDir
     = Lighting.mainImage gradient' normalize' L' camPos rayDir).
Proof.
  split.
  - reflexivity.
  - intros. apply mainImage_independent.
Qed.

(* ================================================================== *)
(** ** The blending placeholder of the overlay shader *)
(* ================================================================== *)

(** C4.  In the overlay shader, [accumulation] returns the vector
    (0.5, 0.5, 0.5, 0.5) scaled by the sample value, whatever colour was
    accumulated before, whatever the opacity correction factor is and
    whatever [pow] computes: the previous colour is discarded and no term
    of a front-to-back blend is present. *)
Theorem C4_accumulation_placeholder :
  forall (pow : Q -> Q -> Q) (value factor : Q) (composedColor : vec4),
    Overlay.accumulation pow value factor composedColor
    = mkvec4 ((1 # 2) .* value) ((1 # 2) .* value)
             ((1 # 2) .* value) ((1 # 2) .* value) /\
    (forall (pow' : Q -> Q -> Q) (factor' : Q) (composedColor' : vec4),
       Overlay.accumulation pow' value factor' composedColor'
       = Overlay.accumulation pow value factor composedColor).
Proof.
  intros. split; reflexivity.
Qed.

(* ================================================================== *)
(** ** Opacity correction *)
(* ================================================================== *)

Section OpacityCorrection.

Local Open Scope R_scope.



End OpacityCorrection.

(* ================================================================== *)
(** ** The ray-casting loop of the overlay shader *)
(* ================================================================== *)

Lemma ofNat_S (k : nat) : ofNat (S k) == ofNat k + 1.
Proof.
  unfold ofNat. rewrite Nat2Z.inj_succ, <- Z.add_1_r, inject_Z_plus.
  reflexivity.
Qed.

Lemma overlay_rayStepSize : Overlay.rayStepSize = 1 # 150.
Proof. reflexivity. Qed.

Lemma overlay_hit_iff camPos rayDir :
  hit (Overlay.intersectBoundingBox camPos rayDir) = true
  <-> tNear (Overlay.intersectBoundingBox camPos rayDir)
      < tFar (Overlay.intersectBoundingBox camPos rayDir).
Proof. apply Qltb_true. Qed.

Section OverlayLoop.

Variables (tex : vec3 -> vec4) (pw : Q -> Q -> Q).
Variables (camPos rayDir : vec3) (tFar : Q).

(** The loop leaves [i] alone and moves [t] by one step. *)
Lemma loopBody_i s :
  Overlay.i (Overlay.loopBody tex pw camPos rayDir s) = Overlay.i s.
Proof. reflexivity. Qed.

Lemma loopBody_t s :
  Overlay.t (Overlay.loopBody tex pw camPos rayDir s)
  == Overlay.t s + Overlay.rayStepSize.
Proof. cbn [Overlay.loopBody Overlay.t]. apply fadd_eq. Qed.

(** From a state with [i = 0] whose [t] needs exactly [m] steps to reach
    [tFar], the loop makes [m] turns and stops, given fuel for [m + 1]
    tests of its condition. *)
Lemma whileLoop_count (m : nat) : forall (fuel : nat) (s : Overlay.March),
  (m < fuel)%nat ->
  Overlay.i s = 0%Z ->
  (forall j, (j < m)%nat ->
     Overlay.t s + ofNat j * Overlay.rayStepSize < tFar) ->
  tFar <= Overlay.t s + ofNat m * Overlay.rayStepSize ->
  exists s',
    Overlay.whileLoop tex pw fuel camPos rayDir tFar s = Some s' /\
    length (Overlay.sampled s') = (length (Overlay.sampled s) + m)%nat /\
    Overlay.i s' = 0%Z /\
    Overlay.t s' == Overlay.t s + ofNat m * Overlay.rayStepSize.
Proof.
  rewrite overlay_rayStepSize.
  induction m as [| m IH]; intros fuel s Hfuel Hi Hbelow Hreach;
    (destruct fuel as [| fuel]; [lia |]);
    cbn [Overlay.whileLoop]; unfold Overlay.loopCond.
  - assert (Qltb (Overlay.t s) tFar = false) as ->.
    { apply Qltb_false. change (ofNat 0) with 0 in Hreach. lra. }
    cbn [andb]. exists s. repeat split; try lia; try assumption.
    change (ofNat 0) with 0. lra.
  - assert (Qltb (Overlay.t s) tFar = true) as ->.
    { apply Qltb_true. specialize (Hbelow 0%nat ltac:(lia)).
      change (ofNat 0) with 0 in Hbelow. lra. }
    rewrite Hi. cbn [andb Z.ltb Z.compare Overlay.sampleNum].
    pose proof (loopBody_t s) as Ht. rewrite overlay_rayStepSize in Ht.
    destruct (IH fuel (Overlay.loopBody tex pw camPos rayDir s))
      as (s' & Hrun & Hlen & Hi' & Ht').
    + lia.
    + now rewrite loopBody_i.
    + intros j Hj. specialize (Hbelow (S j) ltac:(lia)).
      rewrite ofNat_S in Hbelow. lra.
    + rewrite ofNat_S in Hreach. lra.
    + exists s'. repeat split.
      * exact Hrun.
      * rewrite Hlen. cbn [Overlay.loopBody Overlay.sampled length]. lia.
      * exact Hi'.
      * rewrite Ht', ofNat_S. lra.
Qed.

End OverlayLoop.

(** A turn of the loop whose condition holds. *)
Lemma whileLoop_step tex pw fuel camPos rayDir tFar s :
  Overlay.loopCond tFar s = true ->
  Overlay.whileLoop tex pw (S fuel) camPos rayDir tFar s
  = Overlay.whileLoop tex pw fuel camPos rayDir tFar
      (Overlay.loopBody tex pw camPos rayDir s).
Proof. intros H. cbn [Overlay.whileLoop]. now rewrite H. Qed.

Lemma whileLoop_turnsBetween tex pw camPos rayDir (tN tF : Q) :
  tN < tF ->
  forall fuel, (turnsBetween tN tF < fuel)%nat ->
  exists s,
    Overlay.whileLoop tex pw fuel camPos rayDir tF
      (Overlay.mkMarch tN 0%Z (vec4s 0) []) = Some s /\
    length (Overlay.sampled s) = turnsBetween tN tF /\
    Overlay.i s = 0%Z /\
    Overlay.t s == tN + ofNat (turnsBetween tN tF) * Overlay.rayStepSize /\
    tF <= Overlay.t s.
Proof.
  intros Hhit fuel Hfuel.
  unfold turnsBetween in *.
  rewrite overlay_rayStepSize in *.
  set (x := (tF - tN) / (1 # 150)) in *.
  assert (Hx : x == (tF - tN) * 150) by (unfold x; field).
  pose proof (Qle_ceiling x) as Hup.
  pose proof (Qceiling_lt x) as Hlow.
  set (c := Qceiling x) in *.
  assert (Hc : (0 < c)%Z).
  { rewrite Zlt_Qlt. change (inject_Z 0) with 0. lra. }
  assert (Hn : ofNat (Z.to_nat c) = inject_Z c).
  { unfold ofNat. rewrite Z2Nat.id by lia. reflexivity. }
  unfold Z.sub in Hlow. rewrite inject_Z_plus in Hlow.
  change (inject_Z (-1)) with (-1 # 1) in Hlow.
  destruct (whileLoop_count tex pw camPos rayDir tF (Z.to_nat c) fuel
              (Overlay.mkMarch tN 0%Z (vec4s 0) []))
    as (s & Hrun & Hlen & Hi & Ht); cbn [Overlay.t Overlay.i Overlay.sampled].
  - exact Hfuel.
  - reflexivity.
  - intros j Hj. rewrite overlay_rayStepSize.
    assert (Hjc : ofNat j <= inject_Z (c - 1)).
    { unfold ofNat. rewrite <- Zle_Qle. lia. }
    unfold Z.sub in Hjc. rewrite inject_Z_plus in Hjc.
    change (inject_Z (-1)) with (-1 # 1) in Hjc.
    lra.
  - rewrite overlay_rayStepSize, Hn. lra.
  - cbn [Overlay.t Overlay.sampled length] in Hlen, Ht.
    rewrite overlay_rayStepSize in Ht.
    exists s. split; [exact Hrun |]. split; [exact Hlen |].
    split; [exact Hi |]. split.
    + exact Ht.
    + rewrite Ht, Hn. lra.
Qed.

Lemma overlay_rayMarch_unfold tex pw fuel camPos rayDir :
  Overlay.rayMarch tex pw fuel camPos rayDir
  = Overlay.whileLoop tex pw fuel camPos rayDir
      (tFar (Overlay.intersectBoundingBox camPos rayDir))
      (Overlay.mkMarch (tNear (Overlay.intersectBoundingBox camPos rayDir))
         0%Z (vec4s 0) []).
Proof. reflexivity. Qed.

Lemma overlayTurns_unfold camPos rayDir :
  overlayTurns camPos rayDir
  = turnsBetween (tNear (Overlay.intersectBoundingBox camPos rayDir))
                 (tFar (Overlay.intersectBoundingBox camPos rayDir)).
Proof. reflexivity. Qed.

Lemma rayMarch_count tex pw camPos rayDir :
  hit (Overlay.intersectBoundingBox camPos rayDir) = true ->
  forall fuel, (overlayTurns camPos rayDir < fuel)%nat ->
  exists s,
    Overlay.rayMarch tex pw fuel camPos rayDir = Some s /\
    length (Overlay.sampled s) = overlayTurns camPos rayDir /\
    Overlay.i s = 0%Z /\
    Overlay.t s
      == tNear (Overlay.intersectBoundingBox camPos rayDir)
         + ofNat (overlayTurns camPos rayDir) * Overlay.rayStepSize /\
    tFar (Overlay.intersectBoundingBox camPos rayDir) <= Overlay.t s.
Proof.
  intros Hhit fuel.
  rewrite overlay_rayMarch_unfold, overlayTurns_unfold.
  apply overlay_hit_iff in Hhit. revert Hhit.
  generalize (Overlay.intersectBoundingBox camPos rayDir) as h.
  intros h Hhit Hfuel.
  now apply whileLoop_turnsBetween.
Qed.



(* ================================================================== *)
(** ** The bounds of the march *)
(* ================================================================== *)

(** C1, on two rays that hit the box.  The lighting shader never compares
    the marching distance with [tFar]: on [lightingRay] the box is left at
    distance 49/6, yet all 256 samples are taken and the last one lies at
    distance 133/12, outside the box.  The overlay shader never moves [i]:
    on [overlayRay] it takes 169 samples, more than its [sampleNum] of 150. *)
Theorem C1_march_leaves_its_bounds :
  (forall gradient normalize L,
     hit (Lighting.intersectBoundingBox lightingCam lightingRay) = true /\
     Lighting.entry lightingCam lightingRay = 49 # 12 /\
     tFar (Lighting.intersectBoundingBox lightingCam lightingRay) = 49 # 6 /\
     length (Lighting.sampled
               (Lighting.rayMarch gradient normalize L lightingCam lightingRay))
     = Z.to_nat Lighting.sampleNum /\
     hd (vec3s 0)
        (Lighting.sampled
           (Lighting.rayMarch gradient normalize L lightingCam lightingRay))
     = add3 lightingCam (map3 (fun c => c .* (133 # 12)) lightingRay) /\
     49 # 6 < 133 # 12 /\
     v3z (add3 lightingCam (map3 (fun c => c .* (133 # 12)) lightingRay))
     < v3z Lighting.bbMin) /\
  (forall textureSampler pow,
     hit (Overlay.intersectBoundingBox overlayCam overlayRay) = true /\
     exists s,
       Overlay.rayMarch textureSampler pow 170 overlayCam overlayRay = Some s /\
       length (Overlay.sampled s) = 169%nat /\
       (Z.to_nat Overlay.sampleNum < 169)%nat).
Proof.
  split.
  - intros gradient normalize L.
    destruct (rayMarch_sameButGradient gradient (fun _ => vec3s 0)
                normalize (fun v => v) L Lighting.shaderLight
                lightingCam lightingRay) as (_ & _ & ->).
    vm_compute. repeat split.
  - intros tex pw.
    assert (Hhit : hit (Overlay.intersectBoundingBox overlayCam overlayRay)
                   = true) by reflexivity.
    split; [exact Hhit |].
    assert (Hturns : overlayTurns overlayCam overlayRay = 169%nat)
      by (vm_compute; reflexivity).
    destruct (rayMarch_count tex pw overlayCam overlayRay Hhit 170%nat)
      as (s & Hrun & Hlen & _).
    + rewrite Hturns. lia.
    + exists s. rewrite Hturns in Hlen.
      split; [exact Hrun |]. split; [exact Hlen |]. vm_compute. lia.
Qed.

(** What each march does keep to.  The lighting shader takes at most
    [sampleNum] samples on any ray. *)
Lemma lighting_raycastLoop_length gradient normalize L rayDir (n : nat) :
  forall s : Lighting.March,
    (length (Lighting.sampled
               (Lighting.raycastLoop gradient normalize L rayDir n s))
     <= length (Lighting.sampled s) + n)%nat.
Proof.
  induction n as [| n IH]; intros s; cbn [Lighting.raycastLoop].
  - lia.
  - destruct (Qltb _ _); [lia |].
    specialize (IH (Lighting.marchStep gradient normalize L rayDir s)).
    cbn [Lighting.marchStep Lighting.sampled length] in IH. lia.
Qed.

Lemma lighting_rayMarch_length gradient normalize L camPos rayDir :
  (length (Lighting.sampled
             (Lighting.rayMarch gradient normalize L camPos rayDir))
   <= Z.to_nat Lighting.sampleNum)%nat.
Proof.
  unfold Lighting.rayMarch.
  match goal with |- context [Lighting.raycastLoop _ _ _ _ ?n ?s] =>
    exact (lighting_raycastLoop_length gradient normalize L rayDir n s)
  end.
Qed.



(* ================================================================== *)
(** ** Accumulated alpha in the overlay shader *)
(* ================================================================== *)

(** C3, on a march of the overlay shader.  On [overlayRay] through
    [stepTexture] the first two turns of the loop sample 1 and 0.5: both
    classified colours have an alpha in [0,1] (1 and 0.5, also after a
    correction by the unit ratio), and the accumulated alpha goes from 0 to
    0.5 and then down to 0.25. *)
Theorem C3_overlay_alpha_decreases :
  forall pow,
    let h := Overlay.intersectBoundingBox overlayCam overlayRay in
    let s0 := Overlay.mkMarch (tNear h) 0%Z (vec4s 0) [] in
    let s1 := Overlay.loopBody stepTexture pow overlayCam overlayRay s0 in
    let s2 := Overlay.loopBody stepTexture pow overlayCam overlayRay s1 in
    hit h = true /\
    (forall fuel,
       Overlay.rayMarch stepTexture pow (S (S fuel)) overlayCam overlayRay
       = Overlay.whileLoop stepTexture pow fuel overlayCam overlayRay
           (tFar h) s2) /\
    alpha (Overlay.transferFunction 1) = 1 /\
    alpha (Overlay.transferFunction (1 # 2)) = 1 # 2 /\
    Overlay.opacityCorrection (fun x _ => x) 1 1 = 1 /\
    Overlay.opacityCorrection (fun x _ => x) (1 # 2) 1 = 1 # 2 /\
    alpha (Overlay.finalColor s0) = 0 /\
    alpha (Overlay.finalColor s1) = 1 # 2 /\
    alpha (Overlay.finalColor s2) = 1 # 4.
Proof.
  intros pw h s0 s1 s2.
  split; [reflexivity |]. split.
  - intros fuel. rewrite overlay_rayMarch_unfold.
    rewrite !whileLoop_step by (vm_compute; reflexivity).
    reflexivity.
  - vm_compute. repeat split.
Qed.

(* ================================================================== *)
(** ** A march through samples below the threshold, overlay shader *)
(* ================================================================== *)

(** C7, on a march of the overlay shader.  Through a volume that holds 0.4
    everywhere, below the threshold 0.5 of the transfer function, every
    classified sample is the transparent colour, yet the pixel of
    [overlayRay] is (0.04, 0.04, 0.04, 1) and not the background. *)
Theorem C7_overlay_empty_space_not_background :
  forall pow,
    hit (Overlay.intersectBoundingBox overlayCam overlayRay) = true /\
    Overlay.transferFunction (2 # 5) = vec4s 0 /\
    Overlay.mainImage (fun _ => vec4s (2 # 5)) pow 170 overlayCam overlayRay
    = Some (mkvec4 (1 # 25) (1 # 25) (1 # 25) 1) /\
    Some (mkvec4 (1 # 25) (1 # 25) (1 # 25) 1) <> Some Overlay.background.
Proof.
  intros pw. vm_compute. repeat split. discriminate.
Qed.

(* ================================================================== *)
(** ** The same two properties in the lighting shader *)
(* ================================================================== *)

Section LightingMarch.

Variables (gradient normalize : vec3 -> vec3) (L : Lighting.LightEnv).
Variable rayDir : vec3.

Local Abbreviation step := (Lighting.marchStep gradient normalize L rayDir).
Local Abbreviation loop := (Lighting.raycastLoop gradient normalize L rayDir).

(** The classification is either transparent or opaque. *)
Lemma lighting_transfer_alpha (value : Q) :
  alpha (Lighting.transferFunction value) = 0 \/
  alpha (Lighting.transferFunction value) = 1.
Proof.
  unfold Lighting.transferFunction.
  repeat match goal with |- context [if ?b then _ else _] => destruct b end;
    cbn; auto.
Qed.

(** The colour accumulated by one turn of the loop: the classified
    colour [c], its rgb multiplied by its alpha, blended front to back. *)
Lemma lighting_marchStep_finalColor (s : Lighting.March) :
  Lighting.finalColor (step s)
  = let c := Lighting.transferFunction
               (Lighting.sampleVolume (Lighting.pos (step s))) in
    add4 (Lighting.finalColor s)
         (scale4 (set_rgb c (map3 (fun x => x .* alpha c) (xyz c)))
                 (1 .- v4w (Lighting.finalColor s))).
Proof. reflexivity. Qed.

(** Front-to-back blending: one turn of the loop does not lower the
    accumulated alpha and keeps it in [0,1]. *)
Lemma lighting_marchStep_alpha (s : Lighting.March) :
  0 <= alpha (Lighting.finalColor s) <= 1 ->
  alpha (Lighting.finalColor s) <= alpha (Lighting.finalColor (step s)) <= 1.
Proof.
  rewrite lighting_marchStep_finalColor.
  pose proof (lighting_transfer_alpha
                (Lighting.sampleVolume (Lighting.pos (step s)))) as Ha.
  revert Ha.
  generalize (Lighting.transferFunction
                (Lighting.sampleVolume (Lighting.pos (step s)))) as c.
  generalize (Lighting.finalColor s) as fc.
  intros [r g b A] [cr cg cb a]. unfold alpha.
  cbn [v4w add4 zip4 scale4 map4 set_rgb]. intros Ha [H0 H1].
  rewrite fadd_eq, fmul_eq, fsub_eq.
  destruct Ha as [-> | ->]; lra.
Qed.

(** The whole loop, from any state: the accumulated alpha ends where it
    started or higher, and within [0,1]. *)
Lemma lighting_raycastLoop_alpha (n : nat) : forall s : Lighting.March,
  0 <= alpha (Lighting.finalColor s) <= 1 ->
  alpha (Lighting.finalColor s) <= alpha (Lighting.finalColor (loop n s)) <= 1.
Proof.
  induction n as [| n IH]; intros s Hs; cbn [Lighting.raycastLoop].
  - lra.
  - destruct (Qltb _ _); [lra |].
    pose proof (lighting_marchStep_alpha s Hs) as Hstep.
    specialize (IH (step s) ltac:(lra)). lra.
Qed.

(** The trace of sampled positions only grows. *)
Lemma lighting_sampled_grows (n : nat) : forall (s : Lighting.March) (p : vec3),
  In p (Lighting.sampled s) -> In p (Lighting.sampled (loop n s)).
Proof.
  induction n as [| n IH]; intros s p Hp; cbn [Lighting.raycastLoop].
  - exact Hp.
  - destruct (Qltb _ _); [exact Hp |].
    apply IH. cbn [Lighting.marchStep Lighting.sampled]. now right.
Qed.

(** A sample below the threshold leaves a fully transparent accumulated
    colour as it is. *)
Lemma lighting_marchStep_transparent (s : Lighting.March) :
  Lighting.finalColor s = vec4s 0 ->
  Lighting.sampleVolume (Lighting.pos (step s)) <= Lighting.EPS ->
  Lighting.finalColor (step s) = vec4s 0.
Proof.
  intros Hs Hv. rewrite lighting_marchStep_finalColor, Hs.
  revert Hv. generalize (Lighting.sampleVolume (Lighting.pos (step s))) as v.
  intros v Hv. unfold Lighting.transferFunction.
  apply Qltb_false in Hv. rewrite Hv. reflexivity.
Qed.

Lemma lighting_raycastLoop_transparent (n : nat) : forall s : Lighting.March,
  Lighting.finalColor s = vec4s 0 ->
  (forall p, In p (Lighting.sampled (loop n s)) ->
             Lighting.sampleVolume p <= Lighting.EPS) ->
  Lighting.finalColor (loop n s) = vec4s 0.
Proof.
  induction n as [| n IH]; intros s Hs Hall.
  - exact Hs.
  - cbn [Lighting.raycastLoop] in Hall |- *. rewrite Hs in Hall |- *.
    change (Qltb (99 # 100) (alpha (vec4s 0))) with false in Hall |- *.
    cbv iota in Hall |- *.
    apply IH; [| exact Hall].
    apply lighting_marchStep_transparent; [exact Hs |].
    apply Hall, lighting_sampled_grows.
    cbn [Lighting.marchStep Lighting.sampled Lighting.pos]. now left.
Qed.

End LightingMarch.

Lemma lighting_rayMarch_unfold gradient normalize L camPos rayDir :
  Lighting.rayMarch gradient normalize L camPos rayDir
  = Lighting.raycastLoop gradient normalize L rayDir
      (Z.to_nat Lighting.sampleNum)
      (Lighting.mkMarch
         (add3 camPos
            (map3 (fun c => c .* Lighting.entry camPos rayDir) rayDir))
         (vec4s 0) (vec3s 0) []).
Proof. reflexivity. Qed.

Lemma lighting_mainImage_hit gradient normalize L camPos rayDir :
  hit (Lighting.intersectBoundingBox camPos rayDir) = true ->
  Lighting.mainImage gradient normalize L camPos rayDir
  = let finalColor :=
      Lighting.finalColor
        (Lighting.rayMarch gradient normalize L camPos rayDir) in
    add4 (scale4 finalColor (alpha finalColor))
         (scale4l (1 .- alpha finalColor) Lighting.background).
Proof. intros H. unfold Lighting.mainImage. rewrite H. reflexivity. Qed.

(** In the lighting shader, a hit ray all of whose samples lie below the
    threshold of the transfer function yields the background colour. *)
Lemma lighting_empty_space_background gradient normalize L camPos rayDir :
  hit (Lighting.intersectBoundingBox camPos rayDir) = true ->
  (forall p,
     In p (Lighting.sampled
             (Lighting.rayMarch gradient normalize L camPos rayDir)) ->
     Lighting.sampleVolume p <= Lighting.EPS) ->
  Lighting.mainImage gradient normalize L camPos rayDir = Lighting.background.
Proof.
  intros Hhit Hall. rewrite lighting_mainImage_hit by exact Hhit.
  rewrite lighting_rayMarch_unfold in Hall |- *.
  rewrite lighting_raycastLoop_transparent.
  - reflexivity.
  - reflexivity.
  - exact Hall.
Qed.

(** In the lighting shader, the accumulated alpha of the march of any ray
    lies in [0,1]. *)
Lemma lighting_rayMarch_alpha gradient normalize L camPos rayDir :
  0 <= alpha (Lighting.finalColor
                (Lighting.rayMarch gradient normalize L camPos rayDir)) <= 1.
Proof.
  rewrite lighting_rayMarch_unfold.
  match goal with |- context [Lighting.raycastLoop _ _ _ _ ?n ?s] =>
    generalize (lighting_raycastLoop_alpha gradient normalize L rayDir n s)
  end.
  generalize (Z.to_nat Lighting.sampleNum) as n. intros n H.
  change (0 <= 0 <= 1 ->
          0 <= alpha (Lighting.finalColor
                        (Lighting.raycastLoop gradient normalize L rayDir n
          (Lighting.mkMarch
         (add3 camPos
            (map3 (fun c => c .* Lighting.entry camPos rayDir) rayDir))
         (vec4s 0) (vec3s 0) []))) <= 1) in H.
  specialize (H ltac:(lra)). lra.
Qed.

(* ================================================================== *)
(** ** The transfer functions *)
(* ================================================================== *)

(** The thresholds of the lighting shader's transfer function. *)
Lemma lighting_thresholds :
  Lighting.EPS = 1 # 10000000 /\
  Lighting.cube1Density .+ Lighting.EPS = 150001 # 10000000 /\
  Lighting.cube2Density .+ Lighting.EPS = 200001 # 10000000 /\
  Lighting.cube1Density .+ Lighting.cube2Density .+ Lighting.EPS
  = 350001 # 10000000.
Proof. repeat split. Qed.

(** The lighting shader's transfer function, interval by interval. *)
Lemma lighting_transferFunction_cases (value : Q) :
  (value <= 1 # 10000000 ->
   Lighting.transferFunction value = vec4s 0) /\
  (1 # 10000000 < value -> value <= 150001 # 10000000 ->
   Lighting.transferFunction value = blue) /\
  (150001 # 10000000 < value -> value <= 200001 # 10000000 ->
   Lighting.transferFunction value = green) /\
  (200001 # 10000000 < value -> value <= 350001 # 10000000 ->
   Lighting.transferFunction value = red) /\
  (350001 # 10000000 < value ->
   Lighting.transferFunction value = black).
Proof.
  destruct lighting_thresholds as (E0 & E1 & E2 & E3).
  unfold Lighting.transferFunction. rewrite E3, E2, E1, E0.
  repeat split; intros;
    repeat match goal with
    | |- context [Qltb ?a ?b] =>
        first [ rewrite (proj2 (Qltb_true a b)) by lra
              | rewrite (proj2 (Qltb_false a b)) by lra ]
    end; reflexivity.
Qed.

Lemma overlay_transferFunction_cases (value : Q) :
  (value < 1 # 2 -> Overlay.transferFunction value = vec4s 0) /\
  (1 # 2 <= value -> Overlay.transferFunction value = vec4s value).
Proof.
  unfold Overlay.transferFunction. split; intros H.
  - now rewrite (proj2 (Qltb_true _ _) H).
  - now rewrite (proj2 (Qltb_false _ _) H).
Qed.

(** C8 fails on both shaders.  In the lighting shader the green channel of
    the transfer function is not continuous at the node boundary
    [cube1Density + EPS], which lies above the transparency threshold
    [EPS]: the colour jumps from blue to green there.  In the overlay
    shader the value 0.6, above the threshold 0.5, is given the alpha 0.6:
    the colour is not opaque. *)
Lemma C8_transferFunction_jumps :
  Lighting.EPS < Lighting.cube1Density .+ Lighting.EPS /\
  ~ continuousAt (fun v => v4y (Lighting.transferFunction v))
      (Lighting.cube1Density .+ Lighting.EPS) /\
  1 # 2 < 3 # 5 /\
  alpha (Overlay.transferFunction (3 # 5)) = 3 # 5 /\
  ~ 3 # 5 == 1.
Proof.
  split; [reflexivity |].
  split; [| split; [reflexivity | split; [reflexivity | discriminate]]].
  destruct lighting_thresholds as (_ & -> & _).
  intros Hcont. destruct (Hcont 1 ltac:(lra)) as (delta & Hdelta & Hnear).
  set (b := 150001 # 10000000) in *.
  assert (Hm : exists m, 0 < m /\ m < delta /\ m <= 1 # 200).
  { destruct (Qlt_le_dec delta (1 # 200)).
    - exists (delta * (1 # 2)). split; [| split]; lra.
    - exists (1 # 400). split; [| split]; lra. }
  destruct Hm as (m & Hm0 & Hmd & Hm1).
  specialize (Hnear (b + m)).
  assert (Hd : b + m - b == m) by ring.
  rewrite Hd, (Qabs_pos m) in Hnear by lra.
  specialize (Hnear Hmd).
  destruct (lighting_transferFunction_cases (b + m)) as (_ & _ & Hg & _).
  destruct (lighting_transferFunction_cases b) as (_ & Hb & _).
  rewrite Hg, Hb in Hnear by (unfold b; lra).
  vm_compute in Hnear. discriminate.
Qed.

(** C8, amended.  Each transfer function maps the values below its
    threshold ([EPS], resp. 0.5) to the fully transparent colour.  Above
    [EPS] the lighting shader returns an opaque colour that is constant on
    each density interval of its ordered palette: blue up to
    [cube1Density + EPS], green up to [cube2Density + EPS], red up to
    [cube1Density + cube2Density + EPS] and black beyond.  From 0.5 on the
    overlay shader returns the grey whose four components, alpha included,
    are the value itself. *)
Theorem C8_transferFunction_classes :
  forall value : Q,
    (value <= Lighting.EPS ->
     Lighting.transferFunction value = vec4s 0) /\
    (Lighting.EPS < value ->
     alpha (Lighting.transferFunction value) = 1 /\
     (value <= Lighting.cube1Density + Lighting.EPS ->
      Lighting.transferFunction value = blue) /\
     (Lighting.cube1Density + Lighting.EPS < value ->
      value <= Lighting.cube2Density + Lighting.EPS ->
      Lighting.transferFunction value = green) /\
     (Lighting.cube2Density + Lighting.EPS < value ->
      value <= Lighting.cube1Density + Lighting.cube2Density + Lighting.EPS ->
      Lighting.transferFunction value = red) /\
     (Lighting.cube1Density + Lighting.cube2Density + Lighting.EPS < value ->
      Lighting.transferFunction value = black)) /\
    (value < 1 # 2 -> Overlay.transferFunction value = vec4s 0) /\
    (1 # 2 <= value -> Overlay.transferFunction value = vec4s value).
Proof.
  intros value.
  destruct (lighting_transferFunction_cases value) as (H0 & H1 & H2 & H3 & H4).
  destruct (overlay_transferFunction_cases value) as (O0 & O1).
  unfold Lighting.EPS, Lighting.cube1Density, Lighting.cube2Density.
  split; [| split; [| split]]; try assumption.
  intros Hpos. split; [| split; [| split; [| split]]].
  - destruct (Qlt_le_dec (150001 # 10000000) value);
      [destruct (Qlt_le_dec (200001 # 10000000) value);
       [destruct (Qlt_le_dec (350001 # 10000000) value) |] |].
    + now rewrite H4.
    + now rewrite H3.
    + now rewrite H2.
    + now rewrite H1.
  - intros. apply H1; lra.
  - intros. apply H2; lra.
  - intros. apply H3; lra.
  - intros. apply H4; lra.
Qed.

Lemma C8_transferFunction_classes_witness :
  Lighting.transferFunction 0 = vec4s 0 /\
  Lighting.transferFunction (1 # 100) = blue /\
  Lighting.transferFunction (1 # 50) = green /\
  Lighting.transferFunction (3 # 100) = red /\
  Lighting.transferFunction (1 # 10) = black /\
  Overlay.transferFunction (2 # 5) = vec4s 0 /\
  Overlay.transferFunction (3 # 5) = vec4s (3 # 5).
Proof.
  pose proof (C8_transferFunction_classes 0) as (L0 & _).
  pose proof (C8_transferFunction_classes (1 # 100)) as (_ & L1 & _).
  pose proof (C8_transferFunction_classes (1 # 50)) as (_ & L2 & _).
  pose proof (C8_transferFunction_classes (3 # 100)) as (_ & L3 & _).
  pose proof (C8_transferFunction_classes (1 # 10)) as (_ & L4 & _).
  pose proof (C8_transferFunction_classes (2 # 5)) as (_ & _ & O0 & _).
  pose proof (C8_transferFunction_classes (3 # 5)) as (_ & _ & _ & O1).
  destruct (L1 eq_refl) as (_ & B & _).
  destruct (L2 eq_refl) as (_ & _ & G & _).
  destruct (L3 eq_refl) as (_ & _ & _ & R & _).
  destruct (L4 eq_refl) as (_ & _ & _ & _ & K).
  split; [apply L0; vm_compute; discriminate |].
  split; [apply B; vm_compute; discriminate |].
  split; [apply G; [reflexivity | vm_compute; discriminate] |].
  split; [apply R; [reflexivity | vm_compute; discriminate] |].
  split; [apply K; reflexivity |].
  split; [apply O0; reflexivity |].
  apply O1; vm_compute; discriminate.
Defined.

(* ================================================================== *)
(** * Further properties of the code *)
(* ================================================================== *)

(** Float operations as rational ones, up to the equality of rationals. *)
Ltac fnorm :=
  repeat first [ rewrite fadd_eq | rewrite fsub_eq
               | rewrite fmul_eq | rewrite fdiv_eq ].

(* ================================================================== *)
(** ** The slab interval of the intersector *)
(* ================================================================== *)









(* ================================================================== *)
(** ** The procedural volume *)
(* ================================================================== *)

Lemma Qabs_fsub_lt (a c w : Q) :
  Qltb (Qabs (a .- c)) w = true <-> c - w < a /\ a < c + w.
Proof.
  rewrite Qltb_true, fsub_eq, Qabs_Qlt_condition.
  split; intros [H1 H2]; split; lra.
Qed.

(** [isInCube]: the open cube of half-width [cube.w] around [cube.xyz]. *)
Lemma isInCube_true (p : vec3) (cube : vec4) :
  Lighting.isInCube p cube = true <->
  (v4x cube - v4w cube < v3x p /\ v3x p < v4x cube + v4w cube) /\
  (v4y cube - v4w cube < v3y p /\ v3y p < v4y cube + v4w cube) /\
  (v4z cube - v4w cube < v3z p /\ v3z p < v4z cube + v4w cube).
Proof.
  unfold Lighting.isInCube, allLessThan.
  cbn [abs3 sub3 map3 zip3 xyz vec3s v3x v3y v3z].
  rewrite !andb_true_iff, !Qabs_fsub_lt. tauto.
Qed.

(** [isInSphere]: the closed ball of radius [sphere.w] around [sphere.xyz]. *)
Lemma isInSphere_true (p : vec3) (sphere : vec4) :
  Lighting.isInSphere p sphere = true <->
  0 <= v4w sphere /\
  (v3x p - v4x sphere) * (v3x p - v4x sphere)
  + (v3y p - v4y sphere) * (v3y p - v4y sphere)
  + (v3z p - v4z sphere) * (v3z p - v4z sphere) <= v4w sphere * v4w sphere.
Proof.
  unfold Lighting.isInSphere, Qleb, dot3.
  cbn [sub3 zip3 xyz v3x v3y v3z].
  rewrite andb_true_iff, !Qle_bool_iff. fnorm. tauto.
Qed.

Lemma square_bound (a r : Q) :
  0 <= r -> a * a <= r * r -> - r <= a /\ a <= r.
Proof.
  intros Hr Ha. split.
  - destruct (Qlt_le_dec a (- r)); [exfalso; nra | assumption].
  - destruct (Qlt_le_dec r a); [exfalso; nra | assumption].
Qed.

(** A point of a ball lies in the cube around it. *)
Lemma isInSphere_bounds (p : vec3) (sphere : vec4) :
  Lighting.isInSphere p sphere = true ->
  (v4x sphere - v4w sphere <= v3x p /\ v3x p <= v4x sphere + v4w sphere) /\
  (v4y sphere - v4w sphere <= v3y p /\ v3y p <= v4y sphere + v4w sphere) /\
  (v4z sphere - v4w sphere <= v3z p /\ v3z p <= v4z sphere + v4w sphere).
Proof.
  intros Hs. apply isInSphere_true in Hs. destruct Hs as [Hw Hs].
  set (a := v3x p - v4x sphere) in *. set (b := v3y p - v4y sphere) in *.
  set (c := v3z p - v4z sphere) in *.
  assert (Ha : a * a <= v4w sphere * v4w sphere) by nra.
  assert (Hb : b * b <= v4w sphere * v4w sphere) by nra.
  assert (Hc : c * c <= v4w sphere * v4w sphere) by nra.
  apply square_bound in Ha, Hb, Hc; trivial.
  unfold a, b, c in *. repeat split; lra.
Qed.

(** The sphere meets neither cube. *)
Lemma sphere_disjoint (p : vec3) :
  Lighting.isInSphere p Lighting.sphere1 = true ->
  Lighting.isInCube p Lighting.cube1 = false /\
  Lighting.isInCube p Lighting.cube2 = false.
Proof.
  intros Hs. apply isInSphere_bounds in Hs.
  cbn [Lighting.sphere1 v4x v4y v4z v4w] in Hs.
  split; apply not_true_iff_false; intros Hc; apply isInCube_true in Hc;
    cbn [Lighting.cube1 Lighting.cube2 v4x v4y v4z v4w] in Hc; lra.
Qed.

(** X2.  The procedural volume of the lighting shader is empty outside
    the bounding box: at every position that does not lie in the closed
    box from [bbMin] to [bbMax], [sampleVolume] returns 0. *)
Theorem X2_sampleVolume_zero_outside_box :
  forall p : vec3,
    ~ pointInBox Lighting.bbMin Lighting.bbMax p ->
    Lighting.sampleVolume p = 0.
Proof.
  intros p Hout. unfold Lighting.sampleVolume.
  destruct (Lighting.isInCube p Lighting.cube1) eqn:H1.
  { exfalso. apply Hout. apply isInCube_true in H1.
    cbn [Lighting.cube1 v4x v4y v4z v4w] in H1.
    unfold pointInBox. cbn [Lighting.bbMin Lighting.bbMax vec3s v3x v3y v3z].
    lra. }
  destruct (Lighting.isInCube p Lighting.cube2) eqn:H2.
  { exfalso. apply Hout. apply isInCube_true in H2.
    cbn [Lighting.cube2 v4x v4y v4z v4w] in H2.
    unfold pointInBox. cbn [Lighting.bbMin Lighting.bbMax vec3s v3x v3y v3z].
    lra. }
  destruct (Lighting.isInSphere p Lighting.sphere1) eqn:H3.
  { exfalso. apply Hout. apply isInSphere_bounds in H3.
    cbn [Lighting.sphere1 v4x v4y v4z v4w] in H3.
    unfold pointInBox. cbn [Lighting.bbMin Lighting.bbMax vec3s v3x v3y v3z].
    lra. }
  reflexivity.
Qed.

(** The last sample of the march of [lightingRay], at z = -19/4. *)
Lemma X2_sampleVolume_zero_outside_box_witness :
  Lighting.sampleVolume (mkvec3 (- 5 # 2) (1 # 3) (- 19 # 4)) = 0.
Proof.
  apply X2_sampleVolume_zero_outside_box.
  unfold pointInBox. cbn. intros (_ & _ & H & _). lra.
Defined.

(** X3.  What the lighting shader's transfer function makes of a sampled
    density tells the primitives apart: the colour is red in the sphere
    and where the two cubes overlap, green in the second cube alone, blue
    in the first cube alone and transparent elsewhere.  The sphere meets
    neither cube, so no sampled density reaches the black branch of the
    transfer function. *)
Theorem X3_sampled_colour_names_the_primitive :
  forall p : vec3,
    let in1 := Lighting.isInCube p Lighting.cube1 in
    let in2 := Lighting.isInCube p Lighting.cube2 in
    let in3 := Lighting.isInSphere p Lighting.sphere1 in
    Lighting.transferFunction (Lighting.sampleVolume p)
    = (if in3 then red
       else if in1 && in2 then red
       else if in2 then green
       else if in1 then blue
       else vec4s 0)
    /\ in3 && (in1 || in2) = false.
Proof.
  intros p in1 in2 in3.
  assert (Hd : in3 && (in1 || in2) = false).
  { destruct in3 eqn:H3; [| reflexivity].
    destruct (sphere_disjoint p H3) as [H1 H2].
    subst in1 in2. now rewrite H1, H2. }
  split; [| exact Hd].
  unfold Lighting.sampleVolume. fold in1 in2 in3.
  destruct in3, in1, in2; try discriminate Hd; reflexivity.
Qed.

(* ================================================================== *)
(** ** Early ray termination in the lighting shader *)
(* ================================================================== *)

Lemma lighting_transfer_opaque (value : Q) :
  Lighting.EPS < value ->
  Lighting.transferFunction value = blue \/
  Lighting.transferFunction value = green \/
  Lighting.transferFunction value = red \/
  Lighting.transferFunction value = black.
Proof.
  intros Hv. destruct lighting_thresholds as (E0 & _). rewrite E0 in Hv.
  destruct (lighting_transferFunction_cases value) as (_ & H1 & H2 & H3 & H4).
  destruct (Qlt_le_dec (150001 # 10000000) value);
    [destruct (Qlt_le_dec (200001 # 10000000) value);
     [destruct (Qlt_le_dec (350001 # 10000000) value) |] |]; auto.
Qed.

Lemma lighting_transfer_transparent (value : Q) :
  value <= Lighting.EPS -> Lighting.transferFunction value = vec4s 0.
Proof.
  intros Hv. now apply lighting_transferFunction_cases.
Qed.

Section FirstOpaque.

Variables (gradient normalize : vec3 -> vec3) (L : Lighting.LightEnv).
Variable rayDir : vec3.

Local Abbreviation step := (Lighting.marchStep gradient normalize L rayDir).
Local Abbreviation loop := (Lighting.raycastLoop gradient normalize L rayDir).

Lemma lighting_marchStep_sampled s :
  Lighting.sampled (step s) = Lighting.pos (step s) :: Lighting.sampled s.
Proof. reflexivity. Qed.

(** On a transparent accumulated colour, one turn accumulates the colour
    of its sample as it is. *)
Lemma lighting_marchStep_from_clear s :
  Lighting.finalColor s = vec4s 0 ->
  Lighting.finalColor (step s)
  = Lighting.transferFunction (Lighting.sampleVolume (Lighting.pos (step s))).
Proof.
  intros Hs. rewrite lighting_marchStep_finalColor, Hs.
  generalize (Lighting.sampleVolume (Lighting.pos (step s))) as v. intros v.
  destruct (Qlt_le_dec Lighting.EPS v) as [Hv | Hv].
  - destruct (lighting_transfer_opaque v Hv) as [-> | [-> | [-> | ->]]];
      reflexivity.
  - rewrite (lighting_transfer_transparent v Hv). reflexivity.
Qed.

(** With a saturated alpha the loop makes no further turn. *)
Lemma lighting_raycastLoop_saturated n s :
  Qltb (99 # 100) (alpha (Lighting.finalColor s)) = true -> loop n s = s.
Proof.
  intros H. destruct n; cbn [Lighting.raycastLoop];
    [reflexivity | now rewrite H].
Qed.

Lemma lighting_raycastLoop_first_opaque n : forall s,
  Lighting.finalColor s = vec4s 0 ->
  (forall q, In q (Lighting.sampled s) -> transparentAt q) ->
  (Lighting.finalColor (loop n s) = vec4s 0 /\
   forall q, In q (Lighting.sampled (loop n s)) -> transparentAt q)
  \/ exists p rest,
       Lighting.sampled (loop n s) = p :: rest /\
       Lighting.EPS < Lighting.sampleVolume p /\
       (forall q, In q rest -> transparentAt q) /\
       Lighting.finalColor (loop n s)
       = Lighting.transferFunction (Lighting.sampleVolume p).
Proof.
  induction n as [| n IH]; intros s Hs Hall.
  - left. split; assumption.
  - cbn [Lighting.raycastLoop]. rewrite Hs.
    change (Qltb (99 # 100) (alpha (vec4s 0))) with false. cbv iota.
    pose proof (lighting_marchStep_from_clear s Hs) as Hc.
    pose proof (lighting_marchStep_sampled s) as Ht.
    revert Hc Ht. generalize (step s) as s1. intros s1 Hc Ht.
    destruct (Qlt_le_dec Lighting.EPS
                (Lighting.sampleVolume (Lighting.pos s1))) as [Hv | Hv].
    + right. rewrite lighting_raycastLoop_saturated.
      * exists (Lighting.pos s1), (Lighting.sampled s).
        repeat split; assumption.
      * rewrite Hc.
        destruct (lighting_transfer_opaque _ Hv) as [-> | [-> | [-> | ->]]];
          reflexivity.
    + apply IH.
      * rewrite Hc. now apply lighting_transfer_transparent.
      * rewrite Ht. intros q [<- | Hq]; [exact Hv | now apply Hall].
Qed.

End FirstOpaque.

(** The march of a hit ray either meets transparent samples only, and the
    pixel is the background, or stops at its first sample above the
    threshold, and the pixel is the colour of that sample. *)
Lemma lighting_mainImage_first_opaque gradient normalize L camPos rayDir :
  hit (Lighting.intersectBoundingBox camPos rayDir) = true ->
  ((forall q, In q (Lighting.sampled
                      (Lighting.rayMarch gradient normalize L camPos rayDir)) ->
              transparentAt q) /\
   Lighting.mainImage gradient normalize L camPos rayDir = Lighting.background)
  \/ exists p rest,
       Lighting.sampled (Lighting.rayMarch gradient normalize L camPos rayDir)
       = p :: rest /\
       Lighting.EPS < Lighting.sampleVolume p /\
       (forall q, In q rest -> transparentAt q) /\
       Lighting.mainImage gradient normalize L camPos rayDir
       = Lighting.transferFunction (Lighting.sampleVolume p).
Proof.
  intros Hhit.
  rewrite lighting_mainImage_hit by exact Hhit.
  rewrite lighting_rayMarch_unfold.
  match goal with |- context [Lighting.raycastLoop _ _ _ _ ?n ?s] =>
    destruct (lighting_raycastLoop_first_opaque gradient normalize L rayDir n s)
      as [[Hc Hall] | (p & rest & Ht & Hv & Hall & Hc)]
  end.
  - reflexivity.
  - intros q [].
  - left. split; [exact Hall |]. cbv zeta. rewrite Hc. reflexivity.
  - right. exists p, rest. repeat split; try assumption.
    cbv zeta. rewrite Hc.
    destruct (lighting_transfer_opaque _ Hv) as [-> | [-> | [-> | ->]]];
      reflexivity.
Qed.

(** X4.  Early ray termination in the lighting shader: on a hit ray the
    march either meets only samples at or below the threshold [EPS], and
    the pixel is the background colour, or it stops right after its first
    sample above [EPS] (every earlier sample is at or below it, no later
    one is taken), and the pixel is the transfer-function colour of that
    one sample. *)
Theorem X4_pixel_is_first_opaque_sample :
  forall gradient normalize L camPos rayDir,
    hit (Lighting.intersectBoundingBox camPos rayDir) = true ->
    ((forall q,
        In q (Lighting.sampled
                (Lighting.rayMarch gradient normalize L camPos rayDir)) ->
        transparentAt q) /\
     Lighting.mainImage gradient normalize L camPos rayDir
     = Lighting.background)
    \/ exists p rest,
         Lighting.sampled
           (Lighting.rayMarch gradient normalize L camPos rayDir)
         = p :: rest /\
         Lighting.EPS < Lighting.sampleVolume p /\
         (forall q, In q rest -> transparentAt q) /\
         Lighting.mainImage gradient normalize L camPos rayDir
         = Lighting.transferFunction (Lighting.sampleVolume p).
Proof.
  intros. now apply lighting_mainImage_first_opaque.
Qed.

(** The ray from the camera at time 0 towards (1, 1/2, 2) stops in the
    second cube: its pixel is green. *)
Lemma X4_pixel_is_first_opaque_sample_witness :
  Lighting.mainImage (fun _ => vec3s 0) (fun v => v) Lighting.shaderLight
    lightingCam (mkvec3 (- 6 # 7) (- 3 # 7) (2 # 7)) = green.
Proof.
  destruct (X4_pixel_is_first_opaque_sample (fun _ => vec3s 0) (fun v => v)
              Lighting.shaderLight lightingCam
              (mkvec3 (- 6 # 7) (- 3 # 7) (2 # 7)) eq_refl)
    as [[Hall _] | (p & rest & Hs & _ & _ & H)].
  - exfalso.
    assert (Ht : transparentAt (mkvec3 (319 # 128) (319 # 256) (577 # 384))).
    { apply Hall. vm_compute. left. reflexivity. }
    vm_compute in Ht. apply Ht. reflexivity.
  - rewrite H. vm_compute in Hs. injection Hs as <- _. vm_compute. reflexivity.
Defined.

(* ================================================================== *)
(** ** Front-to-back blending in the lighting shader *)
(* ================================================================== *)

(** X5.  Front-to-back blending in the lighting shader: from a loop state
    whose accumulated alpha lies in [0,1], neither one turn of the loop
    nor any number of turns lowers the accumulated alpha, and it stays in
    [0,1]. *)
Theorem X5_lighting_alpha_never_decreases :
  forall gradient normalize L rayDir (s : Lighting.March),
    0 <= alpha (Lighting.finalColor s) <= 1 ->
    (alpha (Lighting.finalColor s)
     <= alpha (Lighting.finalColor
                 (Lighting.marchStep gradient normalize L rayDir s)) <= 1) /\
    (forall n,
       alpha (Lighting.finalColor s)
       <= alpha (Lighting.finalColor
                   (Lighting.raycastLoop gradient normalize L rayDir n s))
       <= 1).
Proof.
  intros gradient normalize L rayDir s Hs. split.
  - now apply lighting_marchStep_alpha.
  - intros n. now apply lighting_raycastLoop_alpha.
Qed.

(** From the initial state of the march of [lightingRay]. *)
Lemma X5_lighting_alpha_never_decreases_witness :
  let s := Lighting.mkMarch lightingCam (vec4s 0) (vec3s 0) [] in
  alpha (Lighting.finalColor s)
  <= alpha (Lighting.finalColor
              (Lighting.marchStep (fun _ => vec3s 0) (fun v => v)
                 Lighting.shaderLight lightingRay s)) <= 1.
Proof.
  intros s.
  assert (H : 0 <= alpha (Lighting.finalColor s) <= 1).
  { unfold s. cbn [Lighting.finalColor alpha vec4s v4w]. lra. }
  exact (proj1 (X5_lighting_alpha_never_decreases (fun _ => vec3s 0)
                  (fun v => v) Lighting.shaderLight lightingRay s H)).
Defined.

(* ================================================================== *)
(** ** The trace and the pixel of the overlay shader *)
(* ================================================================== *)


Section OverlayTrace.

Variables (tex : vec3 -> vec4) (pw : Q -> Q -> Q) (camPos rayDir : vec3).

Local Abbreviation body := (Overlay.loopBody tex pw camPos rayDir).





End OverlayTrace.



(* ================================================================== *)
(** ** The divergence tables of visualization.cpp *)
(* ================================================================== *)

Lemma assignAt_app (l1 l2 : list Q) (y x : Q) :
  Visualization.assignAt (l1 ++ y :: l2) (length l1) x = Some (l1 ++ x :: l2).
Proof.
  induction l1 as [| a l1 IH]; cbn; [reflexivity |]. now rewrite IH.
Qed.

Lemma filled_assign f n k x :
  (k < n)%nat ->
  Visualization.assignAt (filled f n k) k x
  = Some (map f (seq 0 k) ++ x :: repeat 0 (n - S k)).
Proof.
  intros Hk. unfold filled.
  replace (n - k)%nat with (S (n - S k)) by lia. cbn [repeat].
  rewrite <- (assignAt_app (map f (seq 0 k)) (repeat 0 (n - S k)) 0 x) at 1.
  now rewrite length_map, length_seq.
Qed.

Lemma filled_S f n k :
  map f (seq 0 k) ++ f k :: repeat 0 (n - S k) = filled f n (S k).
Proof.
  unfold filled. rewrite seq_S, map_app, <- app_assoc. reflexivity.
Qed.

(** A run of assignments that continues a filled prefix extends it. *)
Lemma assignRange_filled f g n count : forall first,
  (first + count <= n)%nat ->
  (forall idx, (first <= idx < first + count)%nat -> g idx = f idx) ->
  Visualization.assignRange g first count (filled f n first)
  = Some (filled f n (first + count)).
Proof.
  induction count as [| count IH]; intros first Hn Hg;
    cbn [Visualization.assignRange].
  - now rewrite Nat.add_0_r.
  - rewrite filled_assign by lia. rewrite Hg by lia. rewrite filled_S.
    rewrite IH; [| lia | intros; apply Hg; lia].
    now rewrite Nat.add_succ_r.
Qed.

Lemma filled_0 f n : filled f n 0 = repeat 0 n.
Proof. unfold filled. cbn. now rewrite Nat.sub_0_r. Qed.

Lemma filled_full f n : filled f n n = map f (seq 0 n).
Proof. unfold filled. rewrite Nat.sub_diag. cbn. apply app_nil_r. Qed.

Lemma mod_pred_wrap (d c : nat) :
  (c < d)%nat ->
  ((c + d - 1) mod d = if (c =? 0)%nat then d - 1 else c - 1)%nat.
Proof.
  intros Hc. destruct c as [| c]; cbn [Nat.eqb].
  - apply Nat.mod_small. lia.
  - replace (S c + d - 1)%nat with (c + 1 * d)%nat by lia.
    rewrite Nat.Div0.mod_add, Nat.mod_small by lia. lia.
Qed.

Lemma row_col (d idx : nat) :
  (0 < d)%nat -> (idx = idx / d * d + idx mod d /\ idx mod d < d)%nat.
Proof.
  intros Hd. split.
  - rewrite Nat.mul_comm. apply Nat.div_mod_eq.
  - apply Nat.mod_upper_bound. lia.
Qed.

Lemma row_col_div (d r c : nat) : (c < d)%nat -> ((r * d + c) / d = r)%nat.
Proof.
  intros Hc. rewrite Nat.div_add_l by lia. rewrite (Nat.div_small c d Hc). lia.
Qed.

Lemma row_col_mod (d r c : nat) : (c < d)%nat -> ((r * d + c) mod d = c)%nat.
Proof.
  intros Hc. rewrite Nat.add_comm, Nat.Div0.mod_add. now apply Nat.mod_small.
Qed.

Lemma leftOf_spec (d idx : nat) :
  (0 < d)%nat ->
  leftOf d idx
  = if (idx mod d =? 0)%nat then (idx + d - 1)%nat else (idx - 1)%nat.
Proof.
  intros Hd. unfold leftOf. destruct (row_col d idx Hd) as [E Hc].
  rewrite mod_pred_wrap by exact Hc.
  destruct (idx mod d =? 0)%nat eqn:Ec.
  - apply Nat.eqb_eq in Ec. lia.
  - apply Nat.eqb_neq in Ec. lia.
Qed.

Lemma aboveOf_first_row (d idx : nat) :
  (idx < d)%nat -> aboveOf d idx = (idx + (d - 1) * d)%nat.
Proof.
  intros H. unfold aboveOf, yNeighbourRow.
  rewrite Nat.div_small, Nat.mod_small by exact H. cbn [Nat.eqb]. lia.
Qed.

Lemma aboveOf_middle (d idx : nat) :
  (d <= idx < (d - 1) * d)%nat -> aboveOf d idx = (idx - d)%nat.
Proof.
  intros H. assert (Hd : (0 < d)%nat) by lia.
  destruct (row_col d idx Hd) as [E Hc].
  unfold aboveOf, yNeighbourRow.
  assert (Hr : (1 <= idx / d <= d - 2)%nat) by nia.
  destruct (idx / d =? 0)%nat eqn:E0; [apply Nat.eqb_eq in E0; lia |].
  destruct (idx / d =? d - 1)%nat eqn:E1; [apply Nat.eqb_eq in E1; lia |].
  nia.
Qed.

Lemma aboveOf_last_row (d idx : nat) :
  (2 <= d)%nat -> ((d - 1) * d <= idx < d * d)%nat ->
  aboveOf d idx = (idx - (d - 1) * d)%nat.
Proof.
  intros Hd H. destruct (row_col d idx ltac:(lia)) as [E Hc].
  unfold aboveOf, yNeighbourRow.
  assert (Hr : (idx / d = d - 1)%nat) by nia.
  rewrite Hr.
  destruct (d - 1 =? 0)%nat eqn:E0; [apply Nat.eqb_eq in E0; lia |].
  rewrite Nat.eqb_refl. nia.
Qed.

Lemma nth_error_map_seq (f : nat -> Q) (n i : nat) :
  (i < n)%nat -> nth_error (map f (seq 0 n)) i = Some (f i).
Proof.
  intros Hi. rewrite nth_error_map.
  rewrite (nth_error_nth' (seq 0 n) 0%nat) by now rewrite length_seq.
  now rewrite seq_nth.
Qed.

Section DivergenceFacts.

Variables fieldX fieldY : nat -> Q.
Variables w h : Q.

(** The five runs of assignments fill the whole table, each entry with the
    backward difference against its two neighbours. *)
Lemma divergence_table (d : nat) :
  (1 <= d)%nat ->
  Visualization.divergence fieldX fieldY d w h
  = Some (map (divergenceAt fieldX fieldY w h d) (seq 0 (d * d))).
Proof.
  intros Hd. destruct (Nat.eq_dec d 1) as [-> | Hne]; [reflexivity |].
  assert (H2 : (2 <= d)%nat) by lia. clear Hd Hne.
  unfold Visualization.divergence. cbv zeta.
  set (f := divergenceAt fieldX fieldY w h d). set (n := (d * d)%nat).
  assert (Hn : ((d - 1) * d < n)%nat) by (unfold n; nia).
  rewrite <- (filled_0 f n).
  (* entry 0 *)
  rewrite filled_assign by lia.
  replace (Visualization.backwardFiniteDifference fieldX fieldY w h
             0 (d - 1) ((d - 1) * d))
    with (f 0%nat).
  2:{ unfold f, divergenceAt. rewrite leftOf_spec, aboveOf_first_row by lia.
      rewrite Nat.Div0.mod_0_l. cbn [Nat.eqb]. reflexivity. }
  rewrite filled_S.
  (* first row *)
  rewrite (assignRange_filled f); [| unfold n; nia |].
  2:{ intros idx Hi. unfold f, divergenceAt.
      rewrite leftOf_spec, aboveOf_first_row by lia.
      rewrite Nat.mod_small by lia.
      destruct (idx =? 0)%nat eqn:E;
        [apply Nat.eqb_eq in E; lia | reflexivity]. }
  replace (1 + (d - 1))%nat with d by lia.
  (* rows between *)
  rewrite (assignRange_filled f); [| unfold n; nia |].
  2:{ intros idx Hi. unfold f, divergenceAt.
      rewrite leftOf_spec, aboveOf_middle by nia.
      destruct (idx mod d =? 0)%nat; reflexivity. }
  replace (d + ((d - 1) * d - d))%nat with ((d - 1) * d)%nat by nia.
  (* first entry of the last row *)
  rewrite filled_assign by lia.
  replace (Visualization.backwardFiniteDifference fieldX fieldY w h
             ((d - 1) * d) (n - 1) 0)
    with (f ((d - 1) * d)%nat).
  2:{ unfold f, divergenceAt. rewrite leftOf_spec, aboveOf_last_row by nia.
      rewrite Nat.Div0.mod_mul. cbn [Nat.eqb].
      f_equal; unfold n; nia. }
  rewrite filled_S.
  (* rest of the last row *)
  replace (S ((d - 1) * d)) with ((d - 1) * d + 1)%nat by lia.
  rewrite (assignRange_filled f); [| unfold n; nia |].
  2:{ intros idx Hi. unfold f, divergenceAt.
      rewrite leftOf_spec, aboveOf_last_row by (unfold n in *; nia).
      destruct (idx mod d =? 0)%nat eqn:E; [| reflexivity].
      apply Nat.eqb_eq in E. destruct (row_col d idx ltac:(lia)) as [Ex Hc].
      unfold n in Hi.
      assert (Hr : (idx / d = d - 1)%nat) by nia.
      rewrite Hr, E in Ex. lia. }
  replace ((d - 1) * d + 1 + (n - ((d - 1) * d + 1)))%nat
    with n by (unfold n; nia).
  now rewrite filled_full.
Qed.

(** The same table, read by row and column. *)
Lemma divergence_divergenceTable (d : nat) :
  (1 <= d)%nat ->
  divergenceTable fieldX fieldY w h d
    (Visualization.divergence fieldX fieldY d w h).
Proof.
  intros Hd. eexists. split; [now apply divergence_table |].
  split; [now rewrite length_map, length_seq |].
  intros r c Hr Hc.
  rewrite nth_error_map_seq by nia.
  unfold divergenceAt, leftOf, aboveOf.
  now rewrite row_col_div, row_col_mod by exact Hc.
Qed.

End DivergenceFacts.

(** X6.  On a grid of at least one cell per side, [velocityDivergence] and
    [forceFieldDivergence] return without an out-of-range access a table
    of [m_DIM * m_DIM] entries, every one of them assigned: the entry in
    row [r] and column [c] is the backward difference of the x component
    against column [c - 1] of the same row (column [m_DIM - 1] for column
    0) plus that of the y component against column [c] of the row
    [yNeighbourRow m_DIM r]: the last row for row 0, the row before for
    the rows between, and row 0 (not the row before) for the last row. *)
Theorem X6_divergence_is_a_periodic_difference_table :
  forall (fieldX fieldY : nat -> Q) (m_cellWidth m_cellHeight : Q)
         (m_DIM : nat),
    (1 <= m_DIM)%nat ->
    divergenceTable fieldX fieldY m_cellWidth m_cellHeight m_DIM
      (Visualization.velocityDivergence fieldX fieldY m_DIM
         m_cellWidth m_cellHeight) /\
    divergenceTable fieldX fieldY m_cellWidth m_cellHeight m_DIM
      (Visualization.forceFieldDivergence fieldX fieldY m_DIM
         m_cellWidth m_cellHeight).
Proof.
  intros fieldX fieldY m_cellWidth m_cellHeight m_DIM Hd.
  split; now apply divergence_divergenceTable.
Qed.

(** A 3 x 3 grid whose x component is the index of the cell. *)
Lemma X6_divergence_is_a_periodic_difference_table_witness :
  divergenceTable ofNat (fun _ => 0) 1 1 3
    (Visualization.velocityDivergence ofNat (fun _ => 0) 3 1 1) /\
  divergenceTable ofNat (fun _ => 0) 1 1 3
    (Visualization.forceFieldDivergence ofNat (fun _ => 0) 3 1 1).
Proof.
  apply (X6_divergence_is_a_periodic_difference_table
           ofNat (fun _ => 0) 1 1 3).
  lia.
Defined.

(* ================================================================== *)
(** ** Opacity correction composes *)
(* ================================================================== *)

Section OpacityCorrectionFacts.

Local Open Scope R_scope.



End OpacityCorrectionFacts.



(* ================================================================== *)
(** ** The texture lookups of the overlay shader *)
(* ================================================================== *)



